(** * PhantomDNS: the query router, the upstream resolver, the worker client
      and the session cache, embedded from main.go and blessnet.go.

    Go strings are byte sequences and are modelled by [string]; the slices
    the program walks are lists; the mutable objects the functions receive by
    pointer ([*dns.Msg], [*BlessnetClient]) are passed in and returned; what
    the program does to the outside (clock readings, DNS exchanges, HTTP
    calls, log lines, the reply handed to the response writer) is recorded in
    a [World] that every effectful function threads. *)

From Stdlib Require Import ZArith List Bool Arith Lia.
From Stdlib Require Import Strings.String Strings.Ascii.
From Stdlib Require Import Sorting.Sorted.
Import ListNotations.

Local Open Scope list_scope.
Local Open Scope string_scope.

(* ------------------------------------------------------------------ *)
(** ** The functions of Go's [strings] package that the program calls *)

Module GoStrings.

  (** [strings.HasSuffix(s, suffix)]:
      [len(s) >= len(suffix) && s[len(s)-len(suffix):] == suffix]. *)
Definition HasSuffix (s suffix : string) : bool :=
  (String.length suffix <=? String.length s)%nat
  && String.eqb
       (substring (String.length s - String.length suffix)
                  (String.length suffix) s)
       suffix.

  (** [strings.TrimSuffix(s, suffix)]: [s] without the trailing [suffix] when
      it has one (removed once), [s] itself otherwise. *)
Definition TrimSuffix (s suffix : string) : string :=
  if HasSuffix s suffix
  then substring 0 (String.length s - String.length suffix) s
  else s.

  (** [strings.Contains(s, substr)]: [strings.Index(s, substr) >= 0]. *)
Definition Contains (s substr : string) : bool :=
  match index 0 substr s with
  | Some _ => true
  | None => false
  end.

End GoStrings.
Import GoStrings.

(* ------------------------------------------------------------------ *)
(** ** Domain classifier (main.go, [isProxyDomain] and its call site) *)

(** [isProxyDomain], with the global [config.ProxyDomains] as a parameter:
    the loop returns [true] at the first entry that is a suffix of [domain]. *)
Fixpoint isProxyDomain (ProxyDomains : list string) (domain : string) : bool :=
  match ProxyDomains with
  | [] => false
  | d :: rest =>
      if HasSuffix domain d then true else isProxyDomain rest domain
  end.

Inductive Route := Passthrough | Proxied.

(** The routing decision of [handleDNSRequest] for a question name:
    [domain := strings.TrimSuffix(q.Name, ".")], then the two branches of
    [if isProxyDomain(domain)]. *)
Definition classify (ProxyDomains : list string) (qname : string) : Route :=
  let domain := TrimSuffix qname "." in
  if isProxyDomain ProxyDomains domain then Proxied else Passthrough.

(** *** The matching rule in the words of the specification *)

(** ASCII lower-casing, the case normalisation the specification speaks of. *)
Definition lower_ascii (c : ascii) : ascii :=
  let n := nat_of_ascii c in
  if ((65 <=? n) && (n <=? 90))%nat then ascii_of_nat (n + 32) else c.

Fixpoint to_lower (s : string) : string :=
  match s with
  | EmptyString => EmptyString
  | String c s' => String (lower_ascii c) (to_lower s')
  end.

(** "[d] equals [suffix] or ends with ['.'] followed by [suffix], compared
    case-insensitively". *)
Definition spec_matches (d suffix : string) : bool :=
  String.eqb (to_lower d) (to_lower suffix)
  || HasSuffix (to_lower d) ("." ++ to_lower suffix).

Definition spec_classify (S : list string) (d : string) : Route :=
  if existsb (spec_matches d) S then Proxied else Passthrough.

(* ------------------------------------------------------------------ *)
(** ** The part of github.com/miekg/dns the program uses *)

Module Dns.

Definition TypeA : Z := 1.
Definition TypeMX : Z := 15.
Definition TypeTXT : Z := 16.
Definition TypeAAAA : Z := 28.
Definition ClassINET : Z := 1.
Definition OpcodeQuery : Z := 0.
Definition RcodeSuccess : Z := 0.
Definition RcodeServerFailure : Z := 2.

Record Question := mkQuestion {
  Name : string;
  Qtype : Z;
  Qclass : Z
}.

  (** [dns.RR] is an interface whose values the program only passes on; a
      record is kept as its owner name, its type and its data in
      presentation form. *)
Record RR := mkRR {
  rr_name : string;
  rr_type : Z;
  rr_data : string
}.

  (** The fields of [dns.Msg] that the program or [SetReply] touch. *)
Record Msg := mkMsg {
  Id : Z;
  Response : bool;
  Opcode : Z;
  RecursionDesired : bool;
  CheckingDisabled : bool;
  Rcode : Z;
  Compress : bool;
  Question_ : list Question;
  Answer : list RR
}.

  (** [new(dns.Msg)]: every field at its zero value. *)
Definition new_Msg : Msg :=
  mkMsg 0 false 0 false false 0 false [] [].

  (** [Msg.SetReply], from the library's defaults.go: the reply takes the
      request's id and opcode, the rd and cd bits of a query, the success
      response code, and the first question of the request only. *)
Definition SetReply (dns request : Msg) : Msg :=
  let query := (Opcode request =? OpcodeQuery)%Z in
  mkMsg (Id request) true (Opcode request)
        (if query then RecursionDesired request else RecursionDesired dns)
        (if query then CheckingDisabled request else CheckingDisabled dns)
        RcodeSuccess
        (Compress dns)
        (match Question_ request with
         | q :: _ => [q]
         | [] => Question_ dns
         end)
        (Answer dns).

Definition set_Compress (c : bool) (m : Msg) : Msg :=
  mkMsg (Id m) (Response m) (Opcode m) (RecursionDesired m)
        (CheckingDisabled m) (Rcode m) c (Question_ m) (Answer m).

  (** [m.Answer = append(m.Answer, rrs...)]. *)
Definition append_Answer (rrs : list RR) (m : Msg) : Msg :=
  mkMsg (Id m) (Response m) (Opcode m) (RecursionDesired m)
        (CheckingDisabled m) (Rcode m) (Compress m) (Question_ m)
        (Answer m ++ rrs)%list.

  (** What [Client.Exchange] hands back: the reply pointer (possibly nil)
      and the error (possibly nil); the round-trip time is dropped by the
      caller. *)
Record ExchangeResult := mkExchange {
  ex_r : option Msg;
  ex_err : option string
}.

End Dns.
Import Dns.

(* ------------------------------------------------------------------ *)
(** ** Configuration, errors, log lines and the outside world *)

(** The fields of [Config] (config.go) read by the modelled functions. *)
Record Config := mkConfig {
  Nameservers : list string;
  ProxyDomains : list string;
  BlessnetWorkerURL : string;
  BlessnetAPIKey : string;
  BlessnetAPISecret : string
}.

(** Instants and durations in nanoseconds; the zero [time.Time] is [0]. *)
Definition Time := Z.
Definition Duration := Z.
Definition Hour : Duration := (3600 * 1000000000)%Z.

(** The error values built with [fmt.Errorf] in [fetchFromWorker], kept as
    their format and argument. *)
Inductive error :=
| ErrCreatingRequest (cause : string)
| ErrFetchingFromWorker (cause : string)
| ErrReadingWorkerResponse (cause : string)
| ErrWorkerStatus (StatusCode : Z).

(** One constructor per [log.Printf] of the modelled functions. *)
Inductive LogLine :=
| LogQueryFor (name : string)
| LogProxyingDomain (name : string)
| LogUpstreamError (ns cause : string)
| LogFetchingFromWorker (targetURL : string)
| LogWorkerResponseStatus (StatusCode : Z)
| LogWorkerNon200 (StatusCode : Z) (body : string)
| LogDetectedCloudflare
| LogUsingExistingToken (remaining : Duration)
| LogAuthenticating
| LogAuthenticationSuccessful (remaining : Duration)
| LogInitializingClient (url : string)
| LogInitialConnectionFailed (err : error)
| LogWillTryAlternatives
| LogConnectedToWorker.

(** What [client.Do] followed by [ioutil.ReadAll] on the body produces. *)
Inductive HttpResult :=
| DoFailed (cause : string)
| Responded (StatusCode : Z) (body : string) (readErr : option string).

(** The environment of a run.  Each oracle is indexed by the number of
    earlier calls of its kind, so that a run may see any sequence of clock
    readings and of replies, also different replies from one address. *)
Record Env := mkEnv {
  now : nat -> Time;
  exchange : nat -> string -> Question -> ExchangeResult;
  httpDo : nat -> string -> string -> HttpResult;
  NewRR : string -> option RR;
  FormatRFC3339 : Time -> string
}.

(** The effects of a run so far, oldest first. *)
Record World := mkWorld {
  tick : nat;                          (* readings of [time.Now()] *)
  contacted : list string;             (* addresses given to [Exchange] *)
  fetched : list (string * string);    (* (URL, TARGET) of each [client.Do] *)
  logged : list LogLine;
  written : list Msg                   (* messages given to [w.WriteMsg] *)
}.

Definition world0 : World := mkWorld 0 [] [] [] [].

Definition add_log (l : LogLine) (w : World) : World :=
  mkWorld (tick w) (contacted w) (fetched w) (logged w ++ [l])%list (written w).

Definition add_contact (addr : string) (w : World) : World :=
  mkWorld (tick w) (contacted w ++ [addr])%list (fetched w) (logged w)
          (written w).

Definition add_fetch (url target : string) (w : World) : World :=
  mkWorld (tick w) (contacted w) (fetched w ++ [(url, target)])%list
          (logged w) (written w).

Definition add_tick (w : World) : World :=
  mkWorld (S (tick w)) (contacted w) (fetched w) (logged w) (written w).

(** [w.WriteMsg(m)]; its error result is ignored by the caller. *)
Definition WriteMsg (m : Msg) (w : World) : World :=
  mkWorld (tick w) (contacted w) (fetched w) (logged w) (written w ++ [m])%list.

(* ------------------------------------------------------------------ *)
(** ** The program *)

(** [BlessnetClient.auth] (blessnet.go, [AuthConfig]). *)
Record AuthConfig := mkAuthConfig {
  Username : string;
  Password : string;
  Token : string;
  ExpiresAt : Time
}.

(** [BlessnetClient] without its HTTP client and its mutex: a single caller
    that locks and unlocks a free mutex is not delayed by it.  The mutex is
    part of the interleaving model further down. *)
Record BlessnetClient := mkClient {
  Config_ : Config;
  WorkerURL : string;
  Regions : list string;
  ActiveNode : string;
  auth : AuthConfig
}.

Definition set_Token (t : string) (b : BlessnetClient) : BlessnetClient :=
  mkClient (Config_ b) (WorkerURL b) (Regions b) (ActiveNode b)
    (mkAuthConfig (Username (auth b)) (Password (auth b)) t
                  (ExpiresAt (auth b))).

Definition set_ExpiresAt (t : Time) (b : BlessnetClient) : BlessnetClient :=
  mkClient (Config_ b) (WorkerURL b) (Regions b) (ActiveNode b)
    (mkAuthConfig (Username (auth b)) (Password (auth b)) (Token (auth b)) t).

(** The URL hard-wired in [fetchFromWorker]. *)
Definition workerURL : string :=
  "https://apricot-emu-jacklin-qikeha7m.bls.dev/".

Section Program.

Context (E : Env).

(** [time.Now()]: the next reading of the clock. *)
Definition time_Now (w : World) : Time * World :=
  (now E (tick w), add_tick w).

(** [time.Until(t)], that is [t.Sub(time.Now())]. *)
Definition time_Until (t : Time) (w : World) : Duration * World :=
  let '(n, w) := time_Now w in ((t - n)%Z, w).

(** *** main.go *)

(** [handleProxiedDomain]: one log line, then the placeholder record
    ["<name> A 192.168.1.1"], appended when [dns.NewRR] parses it. *)
Definition handleProxiedDomain (m : Msg) (q : Question) (w : World)
  : Msg * World :=
  let w := add_log (LogProxyingDomain (Name q)) w in
  match NewRR E (Name q ++ " A 192.168.1.1") with
  | Some rr => (append_Answer [rr] m, w)
  | None => (m, w)
  end.

(** The question of [upstreamMsg.SetQuestion(q.Name, q.Qtype)]: name and
    type of [q] in class IN. *)
Definition upstream_question (q : Question) : Question :=
  mkQuestion (Name q) (Qtype q) ClassINET.

(** The address [fmt.Sprintf("%s:53", ns)]. *)
Definition upstream_addr (ns : string) : string := ns ++ ":53".

(** [forwardToUpstream], with [config.Nameservers] as a parameter.  Every
    round builds the query for [(q.Name, q.Qtype)] and exchanges it with
    ["<ns>:53"]; an error is logged and the loop goes on; a non-nil reply
    with at least one answer is appended to [m.Answer] and ends the
    function; anything else goes on to the next nameserver. *)
Fixpoint forwardToUpstream (nameservers : list string) (m : Msg)
    (q : Question) (w : World) : Msg * World :=
  match nameservers with
  | [] => (m, w)
  | ns :: rest =>
      let addr := upstream_addr ns in
      let res := exchange E (List.length (contacted w)) addr
                          (upstream_question q) in
      let w := add_contact addr w in
      match ex_err res with
      | Some cause =>
          forwardToUpstream rest m q (add_log (LogUpstreamError ns cause) w)
      | None =>
          match ex_r res with
          | Some r =>
              if (0 <? List.length (Answer r))%nat
              then (append_Answer (Answer r) m, w)
              else forwardToUpstream rest m q w
          | None => forwardToUpstream rest m q w
          end
      end
  end.

(** The body of [for _, q := range m.Question] in [handleDNSRequest]: only
    [case dns.TypeA] exists in the switch on [q.Qtype]. *)
Definition route_question (config : Config) (mw : Msg * World) (q : Question)
  : Msg * World :=
  let '(m, w) := mw in
  if (Qtype q =? TypeA)%Z then
    let w := add_log (LogQueryFor (Name q)) w in
    let domain := TrimSuffix (Name q) "." in
    if isProxyDomain (ProxyDomains config) domain
    then handleProxiedDomain m q w
    else forwardToUpstream (Nameservers config) m q w
  else (m, w).

(** [handleDNSRequest]: build the reply, route the questions of the reply
    when the opcode is a query, write the reply. *)
Definition handleDNSRequest (config : Config) (r : Msg) (w : World) : World :=
  let m := SetReply new_Msg r in
  let m := set_Compress false m in
  let '(m, w) :=
    if (Opcode r =? OpcodeQuery)%Z
    then fold_left (route_question config) (Question_ m) (m, w)
    else (m, w) in
  WriteMsg m w.

(** [fetchFromWorker].  [http.NewRequest] is called with a constant method
    and a constant URL, both well formed, so its error branch is not
    reachable and the request always reaches [client.Do]. *)
Definition fetchFromWorker (targetURL : string) (w : World)
  : (option string * option error) * World :=
  let w := add_log (LogFetchingFromWorker targetURL) w in
  let res := httpDo E (List.length (fetched w)) workerURL targetURL in
  let w := add_fetch workerURL targetURL w in
  match res with
  | DoFailed cause => ((None, Some (ErrFetchingFromWorker cause)), w)
  | Responded StatusCode body readErr =>
      let w := add_log (LogWorkerResponseStatus StatusCode) w in
      match readErr with
      | Some cause => ((None, Some (ErrReadingWorkerResponse cause)), w)
      | None =>
          if negb (StatusCode =? 200)%Z then
            let w := add_log (LogWorkerNon200 StatusCode body) w in
            let w :=
              if (StatusCode =? 403)%Z && Contains body "Cloudflare"
              then add_log LogDetectedCloudflare w
              else w in
            ((None, Some (ErrWorkerStatus StatusCode)), w)
          else ((Some body, None), w)
      end
  end.

(** *** blessnet.go *)

(** [SendProxyRequest]: a single call of [fetchFromWorker]. *)
Definition SendProxyRequest (b : BlessnetClient) (targetURL : string)
    (w : World) : (option string * option error) * World :=
  fetchFromWorker targetURL w.

(** [TestConnection]: fetch ["https://example.com"], keep the error. *)
Definition TestConnection (b : BlessnetClient) (w : World)
  : option error * World :=
  let '(_, err, w) := fetchFromWorker "https://example.com" w in (err, w).

(** [NewBlessnetClient]: the three built-in regions, an empty [AuthConfig],
    the configured worker URL or the default one, and a connection test
    whose outcome is only logged. *)
Definition NewBlessnetClient (config : Config) (w : World)
  : BlessnetClient * World :=
  let url :=
    if String.eqb (BlessnetWorkerURL config) ""
    then "https://apricot-emu-jacklin-qikeha7m.bls.dev"
    else BlessnetWorkerURL config in
  let client :=
    mkClient config url ["us-east"; "eu-west"; "ap-east"] ""
             (mkAuthConfig "" "" "" 0%Z) in
  let w := add_log (LogInitializingClient url) w in
  let '(err, w) := TestConnection client w in
  match err with
  | Some e =>
      (client,
       add_log LogWillTryAlternatives (add_log (LogInitialConnectionFailed e) w))
  | None => (client, add_log LogConnectedToWorker w)
  end.

(** [Authenticate].  The clock is read for the validity test only when the
    token is not empty ([&&] short-circuits), once for the token text, once
    for the expiry and once by each [time.Until] of the log lines.  The
    function has no configuration input and a single result, [nil]. *)
Definition Authenticate (b : BlessnetClient) (w : World)
  : option error * BlessnetClient * World :=
  let '(valid, w) :=
    if negb (String.eqb (Token (auth b)) "") then
      let '(t, w) := time_Now w in ((t <? ExpiresAt (auth b))%Z, w)
    else (false, w) in
  if valid then
    let '(d, w) := time_Until (ExpiresAt (auth b)) w in
    (None, b, add_log (LogUsingExistingToken d) w)
  else
    let w := add_log LogAuthenticating w in
    let '(t, w) := time_Now w in
    let b := set_Token ("simulated_token_" ++ FormatRFC3339 E t) b in
    let '(t, w) := time_Now w in
    let b := set_ExpiresAt (t + 24 * Hour)%Z b in
    let '(d, w) := time_Until (ExpiresAt (auth b)) w in
    (None, b, add_log (LogAuthenticationSuccessful d) w).

(** [RefreshAuth]: empty the token, then [Authenticate]. *)
Definition RefreshAuth (b : BlessnetClient) (w : World)
  : option error * BlessnetClient * World :=
  Authenticate (set_Token "" b) w.

(** [n] calls of [RefreshAuth] in a row; the clients after each call are
    collected, oldest first. *)
Fixpoint RefreshAuth_times (n : nat) (b : BlessnetClient) (w : World)
  : list (option error * BlessnetClient) * World :=
  match n with
  | O => ([], w)
  | S n' =>
      let '(err, b', w') := RefreshAuth b w in
      let '(rest, w'') := RefreshAuth_times n' b' w' in
      ((err, b') :: rest, w'')
  end.

End Program.

(* ------------------------------------------------------------------ *)
(** ** Notions used in the statements *)

(** An upstream fails: a transport error, or no answer record in the reply
    (a nil reply included). *)
Definition upstream_fails (res : ExchangeResult) : Prop :=
  ex_err res <> None \/ (forall r, ex_r res = Some r -> Answer r = []).

(** From the next exchange on, each of [nss], asked in order for [q],
    fails. *)
Definition all_fail (E : Env) (w : World) (q : Question) (nss : list string)
  : Prop :=
  forall i ns, nth_error nss i = Some ns ->
    upstream_fails
      (exchange E (List.length (contacted w) + i) (upstream_addr ns)
                (upstream_question q)).

Definition isTypeA (q : Question) : bool := (Qtype q =? TypeA)%Z.

(** *** Sample environments *)

Definition sample_clock (k : nat) : Time :=
  (1700000000000000000 + 1000 * Z.of_nat k)%Z.

Definition sample_answer (q : Question) : Msg :=
  append_Answer [mkRR (Name q) TypeA "93.184.216.34"]
    (SetReply new_Msg (mkMsg 7 false OpcodeQuery true false 0 false [q] [])).

(** First exchange: time-out; second: a reply without answers; third: one
    address record; later ones: time-out. *)
Definition sample_exchange (n : nat) (addr : string) (q : Question)
  : ExchangeResult :=
  match n with
  | 1 => mkExchange (Some (SetReply new_Msg
                             (mkMsg 7 false OpcodeQuery true false 0 false
                                    [q] [])))
                    None
  | 2 => mkExchange (Some (sample_answer q)) None
  | _ => mkExchange None (Some "i/o timeout")
  end.

(** First call: a 403 challenge page; second: no connection; third: a page. *)
Definition sample_httpDo (n : nat) (url target : string) : HttpResult :=
  match n with
  | 0 => Responded 403 "<title>Attention Required! | Cloudflare</title>" None
  | 1 => DoFailed "dial tcp: i/o timeout"
  | _ => Responded 200 "<html>ok</html>" None
  end.

Definition sample_NewRR (s : string) : option RR :=
  Some (mkRR (TrimSuffix s " A 192.168.1.1") TypeA "192.168.1.1").

Definition sample_env : Env :=
  mkEnv sample_clock sample_exchange sample_httpDo sample_NewRR
        (fun _ => "2023-11-14T22:13:20Z").

(** The same environment with every upstream unreachable. *)
Definition sample_env_down : Env :=
  mkEnv sample_clock
        (fun _ _ _ => mkExchange None (Some "i/o timeout"))
        sample_httpDo sample_NewRR
        (fun _ => "2023-11-14T22:13:20Z").

Definition sample_config : Config :=
  mkConfig ["10.0.0.1"; "10.0.0.2"; "8.8.8.8"; "1.1.1.1"] ["blocked.org"]
           "" "" "".

(** A client just made by [NewBlessnetClient], and the same client after a
    first [Authenticate]. *)
Definition sample_client : BlessnetClient :=
  fst (NewBlessnetClient sample_env sample_config world0).

Definition sample_world : World :=
  snd (NewBlessnetClient sample_env sample_config world0).

Definition sample_client_authenticated : BlessnetClient :=
  snd (fst (Authenticate sample_env sample_client sample_world)).

Definition sample_world_authenticated : World :=
  snd (Authenticate sample_env sample_client sample_world).

Definition sample_query (name : string) (qtype : Z) : Msg :=
  mkMsg 4242 false OpcodeQuery true false 0 false
        [mkQuestion name qtype ClassINET] [].

(* ------------------------------------------------------------------ *)
(** ** Session cache: clocks, reachable clients, issued credentials *)

(** Later readings of the clock give later instants. *)
Definition clock_advances (E : Env) : Prop :=
  forall i j, i < j -> (now E i < now E j)%Z.

(** No reading lies before the zero [time.Time]. *)
Definition clock_after_epoch (E : Env) : Prop :=
  forall i, (0 <= now E i)%Z.

Definition set_Config (config : Config) (b : BlessnetClient) : BlessnetClient :=
  mkClient config (WorkerURL b) (Regions b) (ActiveNode b) (auth b).

(** The clients and worlds a process can be in: the client comes from
    [NewBlessnetClient], its [auth] is written by [Authenticate] and
    [RefreshAuth] only, and the rest of the program may read the clock and
    act on the world in between. *)
Inductive reachable (E : Env) : BlessnetClient -> World -> Prop :=
| reach_new config w :
    reachable E (fst (NewBlessnetClient E config w))
                (snd (NewBlessnetClient E config w))
| reach_Authenticate b w :
    reachable E b w ->
    reachable E (snd (fst (Authenticate E b w))) (snd (Authenticate E b w))
| reach_RefreshAuth b w :
    reachable E b w ->
    reachable E (snd (fst (RefreshAuth E b w))) (snd (RefreshAuth E b w))
| reach_elsewhere b w w' :
    reachable E b w -> tick w <= tick w' -> reachable E b w'.

Definition is_LogAuthenticating (l : LogLine) : bool :=
  match l with
  | LogAuthenticating => true
  | _ => false
  end.

(** How many times the credential-issuing block of [Authenticate] has been
    entered: it starts with the log line "Authenticating with Blessnet
    API...". *)
Definition exchanges (w : World) : nat :=
  List.length (filter is_LogAuthenticating (logged w)).

(** The effect of the issuing block of [Authenticate] (from the log line
    "Authenticating..." to the end), entered with the clock at reading
    [tick w0]. *)
Definition issued (E : Env) (b : BlessnetClient) (w0 : World)
  : BlessnetClient * World :=
  let k := tick w0 in
  (set_ExpiresAt (now E (S k) + 24 * Hour)%Z
     (set_Token ("simulated_token_" ++ FormatRFC3339 E (now E k)) b),
   add_log (LogAuthenticationSuccessful
              (now E (S k) + 24 * Hour - now E (S (S k)))%Z)
     (add_tick (add_tick (add_tick (add_log LogAuthenticating w0))))).

(** Stored expiries stay below the validity window counted from any
    clock reading still to come. *)
Definition expiry_bounded (E : Env) (b : BlessnetClient) (w : World) : Prop :=
  forall k, tick w <= k -> (ExpiresAt (auth b) < now E k + 24 * Hour)%Z.

(** C7 in the words of the specification: without API credentials in the
    configuration the call reports an error. *)
Definition missing_credentials_rejected : Prop :=
  forall (E : Env) (b : BlessnetClient) (w : World),
    BlessnetAPIKey (Config_ b) = "" \/ BlessnetAPISecret (Config_ b) = "" ->
    fst (fst (Authenticate E b w)) <> None.

(** C6 in the words of the specification: with a first endpoint that
    answers with a challenge page, a second that cannot be reached and a
    third that answers, handling a proxied question calls the three
    endpoints in that order. *)
Definition engine_tries_ranked_endpoints : Prop :=
  forall (E : Env) (m : Msg) (q : Question) (w : World)
         (e1 e2 e3 target challenge cause page : string),
    let n := List.length (fetched w) in
    httpDo E n e1 target = Responded 403 challenge None ->
    Contains challenge "Cloudflare" = true ->
    httpDo E (n + 1) e2 target = DoFailed cause ->
    httpDo E (n + 2) e3 target = Responded 200 page None ->
    map fst (skipn n (fetched (snd (handleProxiedDomain E m q w))))
    = [e1; e2; e3].

(* ------------------------------------------------------------------ *)
(** ** Two goroutines in [Authenticate] at once *)

Module Interleaving.

(** Where a goroutine stands in [Authenticate]: before the validity test,
    before [b.mutex.Lock()], before each of the two assignments, before
    [b.mutex.Unlock()], before the last log line, or returned. *)
Inductive pc :=
| AtCheck
| AtLock
| AtSetToken
| AtSetExpiry
| AtUnlock
| AtLogSuccess
| Returned.

(** What the goroutines share: the client, its mutex and the world. *)
Record Shared := mkShared {
  client : BlessnetClient;
  locked : bool;
  world : World
}.

Record System := mkSystem {
  shared : Shared;
  pc1 : pc;
  pc2 : pc
}.

Section Steps.

Context (E : Env).

(** One step of one goroutine; [None] when it cannot move (the mutex is
    held by the other one, or the call has returned).  The validity test
    reads the token and the expiry without the mutex, as in the source. *)
Definition step (p : pc) (s : Shared) : option (pc * Shared) :=
  let b := client s in
  let w := world s in
  match p with
  | AtCheck =>
      let '(valid, w) :=
        if negb (String.eqb (Token (auth b)) "") then
          let '(t, w) := time_Now E w in ((t <? ExpiresAt (auth b))%Z, w)
        else (false, w) in
      if valid then
        let '(d, w) := time_Until E (ExpiresAt (auth b)) w in
        Some (Returned,
              mkShared b (locked s) (add_log (LogUsingExistingToken d) w))
      else
        Some (AtLock, mkShared b (locked s) (add_log LogAuthenticating w))
  | AtLock =>
      if locked s then None else Some (AtSetToken, mkShared b true w)
  | AtSetToken =>
      let '(t, w) := time_Now E w in
      Some (AtSetExpiry,
            mkShared (set_Token ("simulated_token_" ++ FormatRFC3339 E t) b)
                     (locked s) w)
  | AtSetExpiry =>
      let '(t, w) := time_Now E w in
      Some (AtUnlock,
            mkShared (set_ExpiresAt (t + 24 * Hour)%Z b) (locked s) w)
  | AtUnlock => Some (AtLogSuccess, mkShared b false w)
  | AtLogSuccess =>
      let '(d, w) := time_Until E (ExpiresAt (auth b)) w in
      Some (Returned,
            mkShared b (locked s) (add_log (LogAuthenticationSuccessful d) w))
  | Returned => None
  end.

(** A goroutine on its own, for at most [fuel] steps. *)
Fixpoint run_alone (fuel : nat) (p : pc) (s : Shared) : pc * Shared :=
  match fuel with
  | O => (p, s)
  | S fuel' =>
      match step p s with
      | Some (p', s') => run_alone fuel' p' s'
      | None => (p, s)
      end
  end.

(** The scheduler lets the first ([false]) or the second ([true]) goroutine
    make a step; a goroutine that cannot move leaves the system as it is. *)
Definition sched_step (sys : System) (second : bool) : System :=
  if second then
    match step (pc2 sys) (shared sys) with
    | Some (p, s) => mkSystem s (pc1 sys) p
    | None => sys
    end
  else
    match step (pc1 sys) (shared sys) with
    | Some (p, s) => mkSystem s p (pc2 sys)
    | None => sys
    end.

Definition run (schedule : list bool) (sys : System) : System :=
  fold_left sched_step schedule sys.

End Steps.

(** Both goroutines about to call [Authenticate], the mutex free. *)
Definition start (b : BlessnetClient) (w : World) : System :=
  mkSystem (mkShared b false w) AtCheck AtCheck.

(** Both goroutines test the cache before either of them stores a token;
    then the first one runs to its end, then the second one. *)
Definition racy_schedule : list bool :=
  [false; true;
   false; false; false; false; false;
   true; true; true; true; true].

(** C9 in the words of the specification: when both calls have returned,
    one exchange has taken place. *)
Definition single_exchange : Prop :=
  forall (E : Env) (b : BlessnetClient) (w : World) (schedule : list bool),
    Token (auth b) = "" ->
    let sys := run E schedule (start b w) in
    pc1 sys = Returned -> pc2 sys = Returned ->
    exchanges (world (shared sys)) = S (exchanges w).

End Interleaving.

(* ------------------------------------------------------------------ *)
(** ** Notions used in the further properties *)

(** [m'] is [m] with records appended to its answer section: every other
    field is the same. *)
Definition answers_appended (m m' : Msg) : Prop :=
  Id m' = Id m /\ Response m' = Response m /\ Opcode m' = Opcode m
  /\ RecursionDesired m' = RecursionDesired m
  /\ CheckingDisabled m' = CheckingDisabled m
  /\ Rcode m' = Rcode m /\ Compress m' = Compress m
  /\ Question_ m' = Question_ m
  /\ exists rrs, Answer m' = (Answer m ++ rrs)%list.

(** The world [w'] differs from [w] by DNS exchanges and log lines only:
    at most [n] exchanges, no clock reading, no HTTP call, no reply
    written. *)
Definition only_exchanges (n : nat) (w w' : World) : Prop :=
  tick w' = tick w /\ fetched w' = fetched w /\ written w' = written w
  /\ exists addrs, contacted w' = (contacted w ++ addrs)%list
                   /\ List.length addrs <= n.

(** [FetchPage] (blessnet.go): a single call of [fetchFromWorker]. *)
Definition FetchPage (E : Env) (b : BlessnetClient) (targetURL : string)
    (w : World) : (option string * option error) * World :=
  fetchFromWorker E targetURL w.

(** [n] calls of [Authenticate] in a row. *)
Fixpoint Authenticate_times (E : Env) (n : nat) (b : BlessnetClient)
    (w : World) : BlessnetClient * World :=
  match n with
  | O => (b, w)
  | S n' =>
      let '(_, b', w') := Authenticate E b w in
      Authenticate_times E n' b' w'
  end.

(** The log lines added between [w] and [w']. *)
Definition new_log (w w' : World) : list LogLine :=
  skipn (List.length (logged w)) (logged w').

(** A goroutine holds the mutex from after [Lock] until [Unlock]. *)
Definition in_critical (p : Interleaving.pc) : bool :=
  match p with
  | Interleaving.AtSetToken | Interleaving.AtSetExpiry
  | Interleaving.AtUnlock => true
  | _ => false
  end.

(** The steps a goroutine still has to make before it returns, on the
    longest path. *)
Definition steps_left (p : Interleaving.pc) : nat :=
  match p with
  | Interleaving.AtCheck => 6
  | Interleaving.AtLock => 5
  | Interleaving.AtSetToken => 4
  | Interleaving.AtSetExpiry => 3
  | Interleaving.AtUnlock => 2
  | Interleaving.AtLogSuccess => 1
  | Interleaving.Returned => 0
  end.

(** The mutex is held exactly when one goroutine is between [Lock] and
    [Unlock], and the two goroutines are never there together. *)
Definition mutex_respected (sys : Interleaving.System) : Prop :=
  in_critical (Interleaving.pc1 sys) && in_critical (Interleaving.pc2 sys)
  = false
  /\ Interleaving.locked (Interleaving.shared sys)
     = in_critical (Interleaving.pc1 sys) || in_critical (Interleaving.pc2 sys).

(** [1] for a goroutine that has not yet made the validity test. *)
Definition before_check (p : Interleaving.pc) : nat :=
  match p with
  | Interleaving.AtCheck => 1
  | _ => 0
  end.

Definition both_returned (sys : Interleaving.System) : Prop :=
  Interleaving.pc1 sys = Interleaving.Returned
  /\ Interleaving.pc2 sys = Interleaving.Returned.

(* ------------------------------------------------------------------ *)
(** ** config.go: the configuration file *)

Module ConfigFile.

(** The [Config] struct with all its fields; nested structs are flattened
    ([API.BaseURL] is [API_BaseURL]).  Slices are lists (the code only asks
    for their length); the map [Worker.Attributes] is tested against [nil],
    so it is an option. *)
Record Config := mkConfig {
  DNSPort : Z;
  DNSListen : string;
  Nameservers : list string;
  BlessnetWorkerURL : string;
  BlessnetAPIKey : string;
  BlessnetAPISecret : string;
  API_BaseURL : string;
  API_Version : string;
  Auth_Username : string;
  Auth_Password : string;
  Auth_Token : string;
  Deployment_ID : string;
  Deployment_URL : string;
  Worker_Count : Z;
  Worker_Regions : list string;
  Worker_Attributes : option (list (string * string));
  BlockedDomains : list string;
  ProxyDomains : list string;
  ProxyMode : string
}.

(** [var config Config]: every field at its zero value. *)
Definition zero_config : Config :=
  mkConfig 0 "" [] "" "" "" "" "" "" "" "" "" "" 0 [] None [] [] "".

(** The literal built in [createDefaultConfig]. *)
Definition default_config : Config :=
  mkConfig 53 "127.0.0.1" ["8.8.8.8"; "1.1.1.1"]
           "https://apricot-emu-jacklin-qikeha7m.bls.dev" "" ""
           "https://api.bless.network" "v1"
           "" "" ""
           "bafybeidztwbl5w4ih6c6rd4qzl35jmxbm33wm3zd2htjffzxesqikeha7m"
           "https://apricot-emu-jacklin-qikeha7m.bls.dev"
           3 ["us-east"; "eu-west"; "ap-east"]
           (Some [("purpose", "dns-proxy")])
           [] [] "ephemeral".

(** [applyConfigDefaults].  Each [if] of the function tests one field and
    assigns that field only, so the ten assignments are written as one
    record. *)
Definition applyConfigDefaults (config : Config) : Config :=
  mkConfig
    (if (DNSPort config =? 0)%Z then 53%Z else DNSPort config)
    (if String.eqb (DNSListen config) "" then "127.0.0.1"
     else DNSListen config)
    (if (List.length (Nameservers config) =? 0)%nat
     then ["8.8.8.8"; "1.1.1.1"] else Nameservers config)
    (if String.eqb (BlessnetWorkerURL config) ""
     then "https://apricot-emu-jacklin-qikeha7m.bls.dev"
     else BlessnetWorkerURL config)
    (BlessnetAPIKey config)
    (BlessnetAPISecret config)
    (if String.eqb (API_BaseURL config) "" then "https://api.bless.network"
     else API_BaseURL config)
    (if String.eqb (API_Version config) "" then "v1" else API_Version config)
    (Auth_Username config)
    (Auth_Password config)
    (Auth_Token config)
    (Deployment_ID config)
    (Deployment_URL config)
    (if (Worker_Count config =? 0)%Z then 3%Z else Worker_Count config)
    (if (List.length (Worker_Regions config) =? 0)%nat
     then ["us-east"; "eu-west"; "ap-east"] else Worker_Regions config)
    (match Worker_Attributes config with
     | None => Some [("purpose", "dns-proxy")]
     | Some attributes => Some attributes
     end)
    (BlockedDomains config)
    (ProxyDomains config)
    (if String.eqb (ProxyMode config) "" then "ephemeral"
     else ProxyMode config).

(** What [os.Open] followed by [ioutil.ReadAll] produces. *)
Inductive OpenResult :=
| OpenNotExist (err : string)              (* [os.IsNotExist(err)] holds *)
| OpenFailed (err : string)                (* any other error of [os.Open] *)
| Opened (content : string + string).      (* the data read, or the error *)

(** The file system and the JSON codec, as the functions see them. *)
Record FileSystem := mkFileSystem {
  Open : string -> OpenResult;
  MkdirAll : string -> option string;
  WriteFile : string -> string -> option string;
  Dir : string -> string;
  Unmarshal : string -> Config + string;
  MarshalIndent : Config -> string + string
}.

(** The changes made to the file system, oldest first. *)
Inductive FsAction :=
| DidMkdirAll (dir : string) (perm : Z)
| DidWriteFile (path data : string) (perm : Z).

(** [createDefaultConfig]: make the directory, marshal the default
    configuration, write it to [path]; the first error ends the function. *)
Definition createDefaultConfig (fs : FileSystem) (path : string)
  : (Config + string) * list FsAction :=
  match MkdirAll fs (Dir fs path) with
  | Some err => (inr err, [])
  | None =>
      let made := DidMkdirAll (Dir fs path) 493 in      (* 0755 *)
      match MarshalIndent fs default_config with
      | inr err => (inr err, [made])
      | inl configData =>
          match WriteFile fs path configData with
          | Some err => (inr err, [made])
          | None =>
              (inl default_config,
               [made; DidWriteFile path configData 420])   (* 0644 *)
          end
      end
  end.

(** [LoadConfig]. *)
Definition LoadConfig (fs : FileSystem) (path : string)
  : (Config + string) * list FsAction :=
  match Open fs path with
  | OpenNotExist _ => createDefaultConfig fs path
  | OpenFailed err => (inr err, [])
  | Opened (inr err) => (inr err, [])
  | Opened (inl configData) =>
      match Unmarshal fs configData with
      | inr err => (inr err, [])
      | inl config => (inl (applyConfigDefaults config), [])
      end
  end.

(** Every field that [applyConfigDefaults] looks at has a value. *)
Definition complete (config : Config) : Prop :=
  DNSPort config <> 0%Z
  /\ DNSListen config <> ""
  /\ Nameservers config <> []
  /\ BlessnetWorkerURL config <> ""
  /\ API_BaseURL config <> ""
  /\ API_Version config <> ""
  /\ Worker_Count config <> 0%Z
  /\ Worker_Regions config <> []
  /\ Worker_Attributes config <> None
  /\ ProxyMode config <> "".

End ConfigFile.

(** The part of the loaded configuration that the router and the client
    read (the global [config] of main.go). *)
Definition to_Config (c : ConfigFile.Config) : Config :=
  mkConfig (ConfigFile.Nameservers c) (ConfigFile.ProxyDomains c)
           (ConfigFile.BlessnetWorkerURL c) (ConfigFile.BlessnetAPIKey c)
           (ConfigFile.BlessnetAPISecret c).

(** A file system in which config.json holds only a list of proxied
    suffixes, and one in which it does not exist. *)
Definition sample_fs : ConfigFile.FileSystem :=
  ConfigFile.mkFileSystem
    (fun _ => ConfigFile.Opened (inl "{}"))
    (fun _ => None) (fun _ _ => None) (fun _ => ".")
    (fun _ => inl (ConfigFile.mkConfig 0 "" [] "" "" "" "" "" "" "" "" "" ""
                     0 [] None [] ["blocked.org"] ""))
    (fun _ => inl "{}").

Definition sample_fs_empty : ConfigFile.FileSystem :=
  ConfigFile.mkFileSystem
    (fun _ => ConfigFile.OpenNotExist "no such file or directory")
    (fun _ => None) (fun _ _ => None) (fun _ => ".")
    (fun _ => inr "unexpected end of JSON input")
    (fun _ => inl "{}").

(* ------------------------------------------------------------------ *)
(** ** Notions used for the session cache statements *)

(** A later reading of the clock is never an earlier instant; two readings
    may be the same instant. *)
Definition clock_never_goes_back (E : Env) : Prop :=
  forall i j, i <= j -> (now E i <= now E j)%Z.

(** Stored expiries do not exceed the validity window counted from any
    clock reading still to come. *)
Definition expiry_within_window (E : Env) (b : BlessnetClient) (w : World)
  : Prop :=
  forall k, tick w <= k -> (ExpiresAt (auth b) <= now E k + 24 * Hour)%Z.

(** The sample environment with a clock that stands still. *)
Definition sample_env_coarse : Env :=
  mkEnv (fun _ => 1700000000000000000%Z) sample_exchange sample_httpDo
        sample_NewRR (fun _ => "2023-11-14T22:13:20Z").

(** C5 in the words of the specification: a call that finds no valid
    cached credential performs an authentication exchange, that is, some
    call to the outside. *)
Definition stale_session_triggers_exchange : Prop :=
  forall (E : Env) (b : BlessnetClient) (w : World),
    Token (auth b) = "" \/ (ExpiresAt (auth b) <= now E (tick w))%Z ->
    fetched (snd (Authenticate E b w)) <> fetched w
    \/ contacted (snd (Authenticate E b w)) <> contacted w.

(** C8 in the words of the specification: of two [RefreshAuth] calls in a
    row, the second produces a new credential whose expiry is later than
    that of the first. *)
Definition refresh_gives_new_later_credential : Prop :=
  forall (E : Env) (b : BlessnetClient) (w : World),
    clock_never_goes_back E ->
    clock_after_epoch E ->
    reachable E b w ->
    let '(_, b1, w1) := RefreshAuth E b w in
    let '(_, b2, _) := RefreshAuth E b1 w1 in
    Token (auth b2) <> Token (auth b1)
    /\ (ExpiresAt (auth b1) < ExpiresAt (auth b2))%Z.

(* ------------------------------------------------------------------ *)
(** * Properties *)

(** ** Go string functions *)

Lemma length_append (a b : string) :
  String.length (a ++ b) = String.length a + String.length b.
Proof.
  induction a as [|c a IH]; simpl; [reflexivity | now rewrite IH].
Qed.

Lemma append_assoc (a b c : string) : (a ++ b) ++ c = a ++ b ++ c.
Proof.
  induction a as [|x a IH]; simpl; [reflexivity | now rewrite IH].
Qed.

Lemma substring_all (s : string) : substring 0 (String.length s) s = s.
Proof.
  induction s as [|c s IH]; simpl; [reflexivity | now rewrite IH].
Qed.

Lemma substring_skip_prefix (p s : string) :
  substring (String.length p) (String.length s) (p ++ s) = s.
Proof.
  induction p as [|c p IH]; simpl; [apply substring_all | exact IH].
Qed.

Lemma substring_split (s : string) :
  forall n, n <= String.length s ->
  s = substring 0 n s ++ substring n (String.length s - n) s.
Proof.
  induction s as [|c s IH]; intros n Hn; simpl in *.
  - destruct n; reflexivity.
  - destruct n as [|n]; simpl.
    + now rewrite substring_all.
    + f_equal. apply IH. lia.
Qed.

(** [HasSuffix s suffix] holds exactly when [s] is some string followed by
    [suffix]. *)
Lemma HasSuffix_spec (s suffix : string) :
  HasSuffix s suffix = true <-> exists p, s = p ++ suffix.
Proof.
  unfold HasSuffix. rewrite andb_true_iff, Nat.leb_le, String.eqb_eq. split.
  - intros [Hlen Hsub].
    exists (substring 0 (String.length s - String.length suffix) s).
    pose proof (substring_split s (String.length s - String.length suffix))
      as Hsplit.
    replace (String.length s - (String.length s - String.length suffix))
      with (String.length suffix) in Hsplit by lia.
    rewrite Hsub in Hsplit. apply Hsplit. lia.
  - intros [p ->]. rewrite length_append. split; [lia|].
    replace (String.length p + String.length suffix - String.length suffix)
      with (String.length p) by lia.
    apply substring_skip_prefix.
Qed.

Lemma isProxyDomain_spec (S : list string) (d : string) :
  isProxyDomain S d = true <-> exists s, In s S /\ HasSuffix d s = true.
Proof.
  induction S as [|x S IH]; simpl.
  - split; [discriminate | intros [s [[] _]]].
  - destruct (HasSuffix d x) eqn:Hx.
    + split; [intros _; exists x; auto | reflexivity].
    + rewrite IH. split.
      * intros [s [Hin Hs]]. exists s. auto.
      * intros [s [[->|Hin] Hs]]; [congruence | exists s; auto].
Qed.

(** ** Domain classifier *)

Example classify_news_blocked_org :
  classify ["blocked.org"] "news.blocked.org." = Proxied
  /\ classify [] "news.blocked.org." = Passthrough.
Proof. split; reflexivity. Qed.

(** C1, as amended.  A question name is routed [Proxied] exactly when its
    trailing-dot-stripped form [d] is some string followed by a configured
    suffix, byte for byte: upper and lower case are different, and no dot
    is required before the suffix.  Hence [d] equal to a suffix, or ending
    with ['.'] and a suffix, is [Proxied] when written in the same letter
    case; and with no configured suffix every name is [Passthrough]. *)
Theorem classify_proxied_iff_literal_suffix :
  forall (S : list string) (qname : string),
    let d := TrimSuffix qname "." in
    (classify S qname = Proxied <-> exists s p, In s S /\ d = p ++ s)
    /\ (forall s, In s S -> d = s \/ HasSuffix d ("." ++ s) = true ->
                  classify S qname = Proxied)
    /\ classify [] qname = Passthrough.
Proof.
  intros S qname d. unfold classify. fold d.
  assert (Hiff : isProxyDomain S d = true <-> exists s p, In s S /\ d = p ++ s).
  { rewrite isProxyDomain_spec. split.
    - intros [s [Hin Hs]]. apply HasSuffix_spec in Hs as [p Hp]. eauto.
    - intros [s [p [Hin Hp]]]. exists s. split; [assumption|].
      apply HasSuffix_spec. eauto. }
  split; [|split].
  - destruct (isProxyDomain S d).
    + split; [intros _; now apply Hiff | reflexivity].
    + split; [discriminate | intros H; apply Hiff in H; discriminate].
  - intros s Hin Hd.
    assert (Hp : isProxyDomain S d = true).
    { apply Hiff. exists s. destruct Hd as [-> | Hd].
      - exists "". auto.
      - apply HasSuffix_spec in Hd as [p Hp]. exists (p ++ ".").
        split; [assumption|]. now rewrite append_assoc. }
    now rewrite Hp.
  - reflexivity.
Qed.

Lemma classify_proxied_iff_literal_suffix_witness :
  In "blocked.org" ["blocked.org"]
  /\ classify ["blocked.org"] "news.blocked.org." = Proxied.
Proof.
  split; [now left|].
  apply (classify_proxied_iff_literal_suffix ["blocked.org"] "news.blocked.org.")
    with (s := "blocked.org").
  - now left.
  - right. reflexivity.
Defined.

(** C1 as the specification states it does not hold: the code compares
    bytes, so an upper-case query for a configured suffix is [Passthrough],
    and it asks for no label boundary, so a name that merely ends with the
    letters of a suffix is [Proxied]. *)
Lemma classify_differs_from_spec_matching :
  (classify ["blocked.org"] "NEWS.BLOCKED.ORG." = Passthrough
   /\ spec_classify ["blocked.org"] (TrimSuffix "NEWS.BLOCKED.ORG." ".") = Proxied)
  /\ (classify ["blocked.org"] "notblocked.org." = Proxied
      /\ spec_classify ["blocked.org"] (TrimSuffix "notblocked.org." ".")
         = Passthrough)
  /\ ~ (forall S qname,
          classify S qname = Proxied <->
          spec_classify S (TrimSuffix qname ".") = Proxied).
Proof.
  split; [split; reflexivity|]. split; [split; reflexivity|].
  intros H.
  destruct (H ["blocked.org"] "NEWS.BLOCKED.ORG.") as [_ H2].
  specialize (H2 eq_refl). discriminate H2.
Qed.

(** ** Upstream resolver *)

Lemma append_suffix_inj (s a b : string) : a ++ s = b ++ s -> a = b.
Proof.
  revert b. induction a as [|x a IH]; intros [|y b] H; simpl in *.
  - reflexivity.
  - apply (f_equal String.length) in H. simpl in H.
    rewrite length_append in H. lia.
  - apply (f_equal String.length) in H. simpl in H.
    rewrite length_append in H. lia.
  - injection H as -> H. f_equal. now apply IH.
Qed.

Lemma upstream_addr_inj (a b : string) :
  upstream_addr a = upstream_addr b -> a = b.
Proof. apply append_suffix_inj. Qed.

Lemma NoDup_upstream_addr (l : list string) :
  NoDup l -> NoDup (map upstream_addr l).
Proof.
  induction 1 as [|a l Hnotin Hnd IH]; simpl; constructor; [|assumption].
  intros Hin. apply in_map_iff in Hin as [b [Hb Hin]].
  apply upstream_addr_inj in Hb. now subst.
Qed.

Section UpstreamFacts.

Context (E : Env).

(** One round of the loop on a failing upstream: the address is recorded,
    nothing else that the statements look at changes, and the loop goes on
    with the same message. *)
Lemma forwardToUpstream_failing_head ns rest m q w :
  upstream_fails
    (exchange E (List.length (contacted w)) (upstream_addr ns)
              (upstream_question q)) ->
  exists w',
    forwardToUpstream E (ns :: rest) m q w = forwardToUpstream E rest m q w'
    /\ contacted w' = (contacted w ++ [upstream_addr ns])%list
    /\ fetched w' = fetched w /\ written w' = written w /\ tick w' = tick w.
Proof.
  intros Hfail. simpl.
  destruct (ex_err _) as [cause|] eqn:Herr.
  - eexists. split; [reflexivity|]. simpl. auto.
  - destruct Hfail as [Hfail | Hfail]; [congruence|].
    destruct (ex_r _) as [r|] eqn:Hr.
    + rewrite (Hfail r eq_refl). simpl.
      eexists. split; [reflexivity|]. simpl. auto.
    + eexists. split; [reflexivity|]. simpl. auto.
Qed.

(** The loop walks through a failing prefix of the list, contacting each of
    its entries once and in order. *)
Lemma forwardToUpstream_failing_prefix pre :
  forall rest m q w,
    all_fail E w q pre ->
    exists w',
      forwardToUpstream E (pre ++ rest) m q w = forwardToUpstream E rest m q w'
      /\ contacted w' = (contacted w ++ map upstream_addr pre)%list
      /\ fetched w' = fetched w /\ written w' = written w /\ tick w' = tick w.
Proof.
  induction pre as [|ns pre IH]; intros rest m q w Hall.
  - exists w. simpl. rewrite app_nil_r. auto.
  - destruct (forwardToUpstream_failing_head ns (pre ++ rest) m q w)
      as [w1 [Hstep [Hc [Hf [Hw Ht]]]]].
    { specialize (Hall 0 ns eq_refl). now rewrite Nat.add_0_r in Hall. }
    destruct (IH rest m q w1) as [w2 [Hrun [Hc2 [Hf2 [Hw2 Ht2]]]]].
    { intros i a Hi. specialize (Hall (S i) a Hi).
      rewrite Hc, length_app. simpl.
      now replace (List.length (contacted w) + 1 + i)
        with (List.length (contacted w) + S i) by lia. }
    exists w2. repeat split; try congruence.
    + simpl app. rewrite Hstep. exact Hrun.
    + rewrite Hc2, Hc. simpl. now rewrite <- app_assoc.
Qed.

End UpstreamFacts.

(** C3.  When the first [K] configured upstreams ([pre]) fail and the next
    one ([ns]) replies with at least one answer record, [forwardToUpstream]
    appends exactly that reply's records to the message, and the exchanges
    it makes are those with the first [K+1] entries of the list, each once
    and in list order: nothing after [ns] is contacted, and no address is
    contacted twice unless the list itself names it twice. *)
Theorem forwardToUpstream_first_answer :
  forall (E : Env) (pre : list string) (ns : string) (post : list string)
         (m : Msg) (q : Question) (w : World) (r : Msg),
    all_fail E w q pre ->
    exchange E (List.length (contacted w) + List.length pre)
             (upstream_addr ns) (upstream_question q)
      = mkExchange (Some r) None ->
    Answer r <> [] ->
    let '(m', w') := forwardToUpstream E (pre ++ ns :: post) m q w in
    Answer m' = (Answer m ++ Answer r)%list
    /\ contacted w'
       = (contacted w
          ++ map upstream_addr (firstn (S (List.length pre))
                                       (pre ++ ns :: post)))%list
    /\ (NoDup (pre ++ ns :: post) ->
        NoDup (map upstream_addr (firstn (S (List.length pre))
                                         (pre ++ ns :: post)))).
Proof.
  intros E pre ns post m q w r Hpre Hns Hans.
  assert (Hfirst : firstn (S (List.length pre)) (pre ++ ns :: post)
                   = (pre ++ [ns])%list).
  { replace (S (List.length pre)) with (List.length pre + 1) by lia.
    rewrite firstn_app_2. reflexivity. }
  assert (Hnd : NoDup (pre ++ ns :: post) ->
                NoDup (map upstream_addr (pre ++ [ns]))).
  { intros Hnd. apply NoDup_upstream_addr.
    rewrite <- Hfirst. generalize (S (List.length pre)). intros n.
    rewrite <- (firstn_skipn n (pre ++ ns :: post)) in Hnd.
    now apply NoDup_app_remove_r in Hnd. }
  rewrite Hfirst. clear Hfirst.
  destruct (forwardToUpstream_failing_prefix E pre (ns :: post) m q w Hpre)
    as [w1 [Hrun [Hc _]]].
  rewrite Hrun. simpl.
  assert (Hlen : List.length (contacted w1)
                 = List.length (contacted w) + List.length pre).
  { rewrite Hc, length_app, length_map. reflexivity. }
  rewrite Hlen, Hns. simpl.
  destruct (Answer r) as [|rr rrs] eqn:Hr; [congruence|]. simpl.
  repeat split.
  - rewrite Hc, map_app, <- app_assoc. reflexivity.
  - exact Hnd.
Qed.

Lemma forwardToUpstream_first_answer_witness :
  let '(m', w') :=
    forwardToUpstream sample_env
      (["10.0.0.1"; "10.0.0.2"] ++ "8.8.8.8" :: ["1.1.1.1"])
      new_Msg (mkQuestion "example.com." TypeA ClassINET) world0 in
  Answer m' = [mkRR "example.com." TypeA "93.184.216.34"]
  /\ contacted w' = ["10.0.0.1:53"; "10.0.0.2:53"; "8.8.8.8:53"].
Proof.
  pose proof (forwardToUpstream_first_answer sample_env
                ["10.0.0.1"; "10.0.0.2"] "8.8.8.8" ["1.1.1.1"]
                new_Msg (mkQuestion "example.com." TypeA ClassINET) world0
                (sample_answer (mkQuestion "example.com." TypeA ClassINET)))
    as H.
  assert (Hpre : all_fail sample_env world0
                   (mkQuestion "example.com." TypeA ClassINET)
                   ["10.0.0.1"; "10.0.0.2"]).
  { intros i a Hi. destruct i as [|[|i]]; simpl in Hi.
    - left. simpl. discriminate.
    - right. simpl. intros r Hr. injection Hr as <-. reflexivity.
    - destruct i; discriminate. }
  specialize (H Hpre eq_refl).
  assert (Hne : Answer (sample_answer (mkQuestion "example.com." TypeA ClassINET))
                <> []) by (simpl; discriminate).
  specialize (H Hne).
  destruct (forwardToUpstream _ _ _ _ _) as [m' w'].
  destruct H as [Ha [Hc _]]. split; [exact Ha | exact Hc].
Defined.

(** ** Query router *)

Section RouterFacts.

Context (E : Env) (config : Config).

Lemma forwardToUpstream_written nss :
  forall m q w, written (snd (forwardToUpstream E nss m q w)) = written w.
Proof.
  induction nss as [|ns nss IH]; intros m q w; simpl; [reflexivity|].
  destruct (ex_err _); [now rewrite IH|].
  destruct (ex_r _) as [r|]; [|now rewrite IH].
  destruct (0 <? _)%nat; [reflexivity | now rewrite IH].
Qed.

Lemma handleProxiedDomain_written m q w :
  written (snd (handleProxiedDomain E m q w)) = written w.
Proof.
  unfold handleProxiedDomain. now destruct (NewRR E _).
Qed.

Lemma route_question_written mw q :
  written (snd (route_question E config mw q)) = written (snd mw).
Proof.
  destruct mw as [m w]. unfold route_question.
  destruct (Qtype q =? TypeA)%Z; [|reflexivity].
  destruct (isProxyDomain _ _).
  - now rewrite handleProxiedDomain_written.
  - now rewrite forwardToUpstream_written.
Qed.

Lemma route_questions_written qs :
  forall mw,
    written (snd (fold_left (route_question E config) qs mw))
    = written (snd mw).
Proof.
  induction qs as [|q qs IH]; intros mw; simpl; [reflexivity|].
  now rewrite IH, route_question_written.
Qed.

(** A question of another type than A leaves the reply and the world as
    they are. *)
Lemma route_question_other_type m w q :
  isTypeA q = false -> route_question E config (m, w) q = (m, w).
Proof.
  unfold isTypeA, route_question. now intros ->.
Qed.

Lemma route_questions_filter qs :
  forall mw,
    fold_left (route_question E config) qs mw
    = fold_left (route_question E config) (filter isTypeA qs) mw.
Proof.
  induction qs as [|q qs IH]; intros [m w]; cbn [fold_left filter];
    [reflexivity|].
  destruct (isTypeA q) eqn:Hq; cbn [fold_left].
  - apply IH.
  - rewrite route_question_other_type by assumption. apply IH.
Qed.

(** The reply is written once, whatever the request. *)
Lemma handleDNSRequest_written r w :
  exists reply,
    written (handleDNSRequest E config r w) = (written w ++ [reply])%list.
Proof.
  unfold handleDNSRequest.
  destruct (Opcode r =? OpcodeQuery)%Z.
  - destruct (fold_left _ _ _) as [m w'] eqn:Hfold.
    exists m. simpl.
    pose proof (route_questions_written
                  (Question_ (set_Compress false (SetReply new_Msg r)))
                  (set_Compress false (SetReply new_Msg r), w)) as Hw.
    rewrite Hfold in Hw. simpl in Hw. now rewrite Hw.
  - eexists. reflexivity.
Qed.

End RouterFacts.

(** C4.  A type-A query for a name that is not proxied, at a moment when
    every configured upstream fails or replies without answers: the
    resolver leaves the message it was given untouched (no answer), and
    the one reply written carries no answer record and the success response
    code, not the server-failure code; it is a well-formed reply to the
    request (response bit, same id, the question echoed). *)
Theorem all_upstreams_fail_empty_success_reply :
  forall (E : Env) (config : Config) (r : Msg) (q : Question)
         (rest : list Question) (w : World),
    Opcode r = OpcodeQuery ->
    Question_ r = q :: rest ->
    Qtype q = TypeA ->
    classify (ProxyDomains config) (Name q) = Passthrough ->
    all_fail E w q (Nameservers config) ->
    (forall m, fst (forwardToUpstream E (Nameservers config) m q w) = m)
    /\ exists reply,
         written (handleDNSRequest E config r w) = (written w ++ [reply])%list
         /\ Answer reply = []
         /\ Rcode reply = RcodeSuccess
         /\ Rcode reply <> RcodeServerFailure
         /\ Response reply = true
         /\ Id reply = Id r
         /\ Question_ reply = [q].
Proof.
  intros E config r q rest w Hop Hqs Hty Hroute Hfail.
  assert (Hnoans : forall m w0,
             List.length (contacted w0) = List.length (contacted w) ->
             fst (forwardToUpstream E (Nameservers config) m q w0) = m).
  { intros m w0 Hlen.
    destruct (forwardToUpstream_failing_prefix E (Nameservers config) [] m q w0)
      as [w1 [Hrun _]].
    - intros i ns Hi. rewrite Hlen. now apply Hfail.
    - rewrite app_nil_r in Hrun. rewrite Hrun. reflexivity. }
  split; [intros m; now apply Hnoans|].
  unfold classify in Hroute.
  destruct (isProxyDomain (ProxyDomains config) (TrimSuffix (Name q) "."))
    eqn:Hproxy; [discriminate|].
  unfold handleDNSRequest. rewrite Hop. simpl.
  unfold SetReply. rewrite Hqs, Hop. simpl.
  rewrite Hty. simpl. rewrite Hproxy.
  match goal with
  | |- context [forwardToUpstream E ?nss ?m0 q ?w0] =>
      pose proof (Hnoans m0 w0 eq_refl) as Hm;
      destruct (forwardToUpstream E nss m0 q w0) as [m' w'] eqn:Hrun
  end.
  simpl in Hm. subst m'.
  pose proof (forwardToUpstream_written E (Nameservers config)) as Hw.
  match type of Hrun with
  | forwardToUpstream E _ ?m0 q ?w0 = _ => specialize (Hw m0 q w0)
  end.
  rewrite Hrun in Hw. simpl in Hw.
  eexists. split; [simpl; rewrite Hw; reflexivity|].
  simpl. repeat split; try reflexivity. discriminate.
Qed.

Lemma all_upstreams_fail_empty_success_reply_witness :
  exists reply,
    written (handleDNSRequest sample_env_down sample_config
               (sample_query "example.com." TypeA) world0) = [reply]
    /\ Answer reply = [] /\ Rcode reply = RcodeSuccess.
Proof.
  destruct (all_upstreams_fail_empty_success_reply
              sample_env_down sample_config
              (sample_query "example.com." TypeA)
              (mkQuestion "example.com." TypeA ClassINET) [] world0)
    as [_ [reply [Hw [Ha [Hr _]]]]].
  - reflexivity.
  - reflexivity.
  - reflexivity.
  - reflexivity.
  - intros i ns _. left. simpl. discriminate.
  - exists reply. auto.
Defined.

(** C10.  Whatever the inbound message, the handler writes exactly one
    reply.  In its loop a question of type A is logged, classified on its
    name without the final dot, and handed to [handleProxiedDomain] when
    the name is proxied and to [forwardToUpstream] otherwise; a question of
    any other type changes neither the reply nor the world (no
    classification, no exchange, no record), so the loop over a question
    list does what the loop over its type-A questions does.  For a query
    whose question is of type A the reply written is the one the chosen
    handler has filled; when the question carried into the reply is not of
    type A, the reply written is the bare reply to the request, without
    answer records, and no upstream and no worker has been contacted. *)
Theorem handleDNSRequest_routes_only_type_A :
  forall (E : Env) (config : Config) (r : Msg) (w : World),
    (exists reply,
        written (handleDNSRequest E config r w) = (written w ++ [reply])%list)
    /\ (forall m w' q,
           isTypeA q = false -> route_question E config (m, w') q = (m, w'))
    /\ (forall qs mw,
           fold_left (route_question E config) qs mw
           = fold_left (route_question E config) (filter isTypeA qs) mw)
    /\ ((forall q, hd_error (Question_ r) = Some q -> isTypeA q = false) ->
        let w' := handleDNSRequest E config r w in
        written w' = (written w ++ [set_Compress false (SetReply new_Msg r)])%list
        /\ Answer (set_Compress false (SetReply new_Msg r)) = []
        /\ contacted w' = contacted w
        /\ fetched w' = fetched w
        /\ logged w' = logged w)
    /\ (forall m w' q,
           isTypeA q = true ->
           route_question E config (m, w') q
           = match classify (ProxyDomains config) (Name q) with
             | Proxied =>
                 handleProxiedDomain E m q (add_log (LogQueryFor (Name q)) w')
             | Passthrough =>
                 forwardToUpstream E (Nameservers config) m q
                   (add_log (LogQueryFor (Name q)) w')
             end)
    /\ (forall q rest,
           Opcode r = OpcodeQuery ->
           Question_ r = q :: rest ->
           isTypeA q = true ->
           handleDNSRequest E config r w
           = let m0 := set_Compress false (SetReply new_Msg r) in
             let w0 := add_log (LogQueryFor (Name q)) w in
             let '(m, w1) :=
               match classify (ProxyDomains config) (Name q) with
               | Proxied => handleProxiedDomain E m0 q w0
               | Passthrough =>
                   forwardToUpstream E (Nameservers config) m0 q w0
               end in
             WriteMsg m w1).
Proof.
  intros E config r w. split; [apply handleDNSRequest_written|].
  split; [intros m w' q; apply route_question_other_type|].
  split; [intros qs mw; apply route_questions_filter|].
  assert (Hdispatch : forall m w' q,
             isTypeA q = true ->
             route_question E config (m, w') q
             = match classify (ProxyDomains config) (Name q) with
               | Proxied =>
                   handleProxiedDomain E m q (add_log (LogQueryFor (Name q)) w')
               | Passthrough =>
                   forwardToUpstream E (Nameservers config) m q
                     (add_log (LogQueryFor (Name q)) w')
               end).
  { intros m w' q Hq. unfold route_question, classify.
    unfold isTypeA in Hq. rewrite Hq.
    now destruct (isProxyDomain (ProxyDomains config)
                                (TrimSuffix (Name q) ".")). }
  split; [|split; [exact Hdispatch|]].
  - intros Hhd. unfold handleDNSRequest.
    set (m0 := set_Compress false (SetReply new_Msg r)).
    assert (Hfold : fold_left (route_question E config) (Question_ m0) (m0, w)
                    = (m0, w)).
    { assert (HQ : Question_ m0 = match Question_ r with
                                  | q :: _ => [q]
                                  | [] => []
                                  end) by reflexivity.
      rewrite HQ. destruct (Question_ r) as [|q rest]; cbn [fold_left];
        [reflexivity|].
      apply route_question_other_type, Hhd. reflexivity. }
    destruct (Opcode r =? OpcodeQuery)%Z; [rewrite Hfold|];
      simpl; repeat split; reflexivity.
  - intros q rest Hop Hqs Hq. unfold handleDNSRequest.
    set (m0 := set_Compress false (SetReply new_Msg r)).
    assert (Hquery : (Opcode r =? OpcodeQuery)%Z = true)
      by (rewrite Hop; reflexivity).
    assert (HQ : Question_ m0 = [q])
      by (subst m0; simpl; now rewrite Hqs).
    rewrite Hquery, HQ. cbn [fold_left].
    rewrite (Hdispatch m0 w q Hq). reflexivity.
Qed.

Lemma handleDNSRequest_routes_only_type_A_witness :
  (let w' := handleDNSRequest sample_env sample_config
               (sample_query "example.com." TypeAAAA) world0 in
   written w'
   = [set_Compress false
        (SetReply new_Msg (sample_query "example.com." TypeAAAA))]
   /\ contacted w' = [])
  /\ contacted (handleDNSRequest sample_env sample_config
                  (sample_query "example.com." TypeA) world0)
     = ["10.0.0.1:53"; "10.0.0.2:53"; "8.8.8.8:53"].
Proof.
  split.
  - destruct (handleDNSRequest_routes_only_type_A sample_env sample_config
                (sample_query "example.com." TypeAAAA) world0)
      as [_ [_ [_ [H _]]]].
    destruct H as [Hw [_ [Hc _]]].
    + intros q Hq. injection Hq as <-. reflexivity.
    + split; [exact Hw | exact Hc].
  - destruct (handleDNSRequest_routes_only_type_A sample_env sample_config
                (sample_query "example.com." TypeA) world0)
      as [_ [_ [_ [_ [_ H]]]]].
    rewrite (H (mkQuestion "example.com." TypeA ClassINET) []
               eq_refl eq_refl eq_refl).
    reflexivity.
Defined.

(** ** Session cache *)

Lemma exchanges_add_log l w :
  exchanges (add_log l w)
  = exchanges w + (if is_LogAuthenticating l then 1 else 0).
Proof.
  unfold exchanges, add_log. simpl.
  rewrite filter_app, length_app. simpl.
  destruct (is_LogAuthenticating l); reflexivity.
Qed.

Section SessionFacts.

Context (E : Env).

(** The branch taken with a non-empty token that has not expired. *)
Lemma Authenticate_cached b w :
  Token (auth b) <> "" ->
  (now E (tick w) < ExpiresAt (auth b))%Z ->
  Authenticate E b w
  = (None, b,
     add_log (LogUsingExistingToken
                (ExpiresAt (auth b) - now E (S (tick w)))%Z)
             (add_tick (add_tick w))).
Proof.
  intros Htok Hexp. unfold Authenticate, time_Until, time_Now.
  apply String.eqb_neq in Htok. rewrite Htok. simpl.
  apply Z.ltb_lt in Hexp. rewrite Hexp. reflexivity.
Qed.

Lemma Authenticate_empty b w :
  Token (auth b) = "" ->
  Authenticate E b w = (None, fst (issued E b w), snd (issued E b w)).
Proof.
  intros Htok. unfold Authenticate, time_Until, time_Now, issued.
  rewrite Htok. reflexivity.
Qed.

Lemma Authenticate_expired b w :
  Token (auth b) <> "" ->
  (ExpiresAt (auth b) <= now E (tick w))%Z ->
  Authenticate E b w
  = (None, fst (issued E b (add_tick w)), snd (issued E b (add_tick w))).
Proof.
  intros Htok Hexp. unfold Authenticate, time_Until, time_Now, issued.
  apply String.eqb_neq in Htok. rewrite Htok. simpl.
  apply Z.ltb_ge in Hexp. rewrite Hexp. reflexivity.
Qed.

Lemma issued_facts b w0 :
  Token (auth (fst (issued E b w0)))
  = "simulated_token_" ++ FormatRFC3339 E (now E (tick w0))
  /\ ExpiresAt (auth (fst (issued E b w0)))
     = (now E (S (tick w0)) + 24 * Hour)%Z
  /\ tick (snd (issued E b w0)) = S (S (S (tick w0)))
  /\ exchanges (snd (issued E b w0)) = S (exchanges w0)
  /\ fetched (snd (issued E b w0)) = fetched w0
  /\ Config_ (fst (issued E b w0)) = Config_ b.
Proof.
  unfold issued. simpl. repeat split.
  unfold exchanges. simpl. rewrite !filter_app, !length_app. simpl. lia.
Qed.

(** [RefreshAuth] always enters the issuing block. *)
Lemma RefreshAuth_issues b w :
  RefreshAuth E b w
  = (None, fst (issued E (set_Token "" b) w), snd (issued E (set_Token "" b) w)).
Proof.
  unfold RefreshAuth. now apply Authenticate_empty.
Qed.

Lemma issued_expiry_bounded b w0 :
  clock_advances E ->
  expiry_bounded E (fst (issued E b w0)) (snd (issued E b w0)).
Proof.
  intros Hclock k Hk.
  destruct (issued_facts b w0) as [_ [Hexp [Htick _]]].
  rewrite Hexp. rewrite Htick in Hk.
  assert (now E (S (tick w0)) < now E k)%Z by (apply Hclock; lia).
  lia.
Qed.

Lemma reachable_expiry_bounded b w :
  clock_advances E -> clock_after_epoch E ->
  reachable E b w -> expiry_bounded E b w.
Proof.
  intros Hclock Hepoch Hreach.
  induction Hreach as [config w | b w Hreach IH | b w Hreach IH
                      | b w w' Hreach IH Hle].
  - intros k _. unfold NewBlessnetClient.
    destruct (TestConnection _ _ _) as [[e|] w1]; simpl;
      specialize (Hepoch k); unfold Hour; lia.
  - destruct (String.eqb (Token (auth b)) "") eqn:Htok.
    + apply String.eqb_eq in Htok. rewrite Authenticate_empty by assumption.
      simpl. now apply issued_expiry_bounded.
    + apply String.eqb_neq in Htok.
      destruct (Z.lt_ge_cases (now E (tick w)) (ExpiresAt (auth b)))
        as [Hlt | Hge].
      * rewrite Authenticate_cached by assumption. simpl.
        intros k Hk. apply IH. simpl in Hk. lia.
      * rewrite Authenticate_expired by assumption. simpl.
        now apply issued_expiry_bounded.
  - rewrite RefreshAuth_issues. simpl. now apply issued_expiry_bounded.
  - intros k Hk. apply IH. lia.
Qed.

End SessionFacts.

(** C5 as the specification states it does not hold: a client without a
    cached token authenticates without any call to the outside; no
    authentication exchange takes place. *)
Lemma Authenticate_issues_without_exchange :
  Token (auth sample_client) = ""
  /\ fetched (snd (Authenticate sample_env sample_client sample_world))
     = fetched sample_world
  /\ contacted (snd (Authenticate sample_env sample_client sample_world))
     = contacted sample_world
  /\ ~ stale_session_triggers_exchange.
Proof.
  repeat split. intros H.
  destruct (H sample_env sample_client sample_world) as [Hf | Hc].
  - now left.
  - apply Hf. reflexivity.
  - apply Hc. reflexivity.
Qed.

(** C5, as amended.  With a non-empty cached token whose expiry is
    strictly after the clock reading of the call, [Authenticate] succeeds
    and leaves the client as it is, without entering the issuing block and
    without any call to the outside.  Otherwise (empty token, or expiry not
    after that reading) it enters the issuing block once, which makes no
    call to the outside either: it builds the token
    ["simulated_token_" ++ RFC3339 time] from a clock reading of the call
    and stores it with the expiry set to the next clock reading plus the
    validity window of twenty-four hours, then returns without error. *)
Theorem Authenticate_cached_or_issued :
  forall (E : Env) (b : BlessnetClient) (w : World),
    (Token (auth b) <> "" ->
     (now E (tick w) < ExpiresAt (auth b))%Z ->
     exists w',
       Authenticate E b w = (None, b, w')
       /\ exchanges w' = exchanges w
       /\ fetched w' = fetched w
       /\ contacted w' = contacted w)
    /\ (Token (auth b) = "" \/ (ExpiresAt (auth b) <= now E (tick w))%Z ->
        exists b' w' k,
          Authenticate E b w = (None, b', w')
          /\ tick w <= k /\ S k < tick w'
          /\ Token (auth b')
             = "simulated_token_" ++ FormatRFC3339 E (now E k)
          /\ ExpiresAt (auth b') = (now E (S k) + 24 * Hour)%Z
          /\ exchanges w' = S (exchanges w)
          /\ fetched w' = fetched w
          /\ contacted w' = contacted w).
Proof.
  intros E b w. split.
  - intros Htok Hexp. eexists. split; [now apply Authenticate_cached|].
    rewrite exchanges_add_log. simpl. unfold exchanges. simpl.
    repeat split; lia.
  - intros Hcase.
    destruct (String.eqb (Token (auth b)) "") eqn:Htok.
    + apply String.eqb_eq in Htok.
      destruct (issued_facts E b w) as [Ht [He [Hk [Hx _]]]].
      exists (fst (issued E b w)), (snd (issued E b w)), (tick w).
      split; [now apply Authenticate_empty|].
      repeat split; try assumption; lia.
    + apply String.eqb_neq in Htok.
      destruct Hcase as [Hempty | Hexp]; [contradiction|].
      destruct (issued_facts E b (add_tick w)) as [Ht [He [Hk [Hx _]]]].
      exists (fst (issued E b (add_tick w))), (snd (issued E b (add_tick w))),
             (S (tick w)).
      split; [now apply Authenticate_expired|].
      simpl in *. repeat split; try assumption; lia.
Qed.

Lemma Authenticate_cached_or_issued_witness :
  (exists b' w' k,
      Authenticate sample_env sample_client sample_world = (None, b', w')
      /\ tick sample_world <= k /\ S k < tick w'
      /\ Token (auth b')
         = "simulated_token_" ++ FormatRFC3339 sample_env (now sample_env k)
      /\ ExpiresAt (auth b') = (now sample_env (S k) + 24 * Hour)%Z
      /\ exchanges w' = S (exchanges sample_world)
      /\ fetched w' = fetched sample_world
      /\ contacted w' = contacted sample_world)
  /\ (exists w',
         Authenticate sample_env sample_client_authenticated
                      sample_world_authenticated
         = (None, sample_client_authenticated, w')
         /\ exchanges w' = exchanges sample_world_authenticated
         /\ fetched w' = fetched sample_world_authenticated
         /\ contacted w' = contacted sample_world_authenticated).
Proof.
  split.
  - apply (Authenticate_cached_or_issued sample_env sample_client sample_world).
    left. reflexivity.
  - apply (Authenticate_cached_or_issued sample_env sample_client_authenticated
             sample_world_authenticated).
    + discriminate.
    + reflexivity.
Defined.

(** C7 as the specification states it does not hold: a client whose
    configuration has neither API key nor API secret authenticates without
    error. *)
Lemma Authenticate_succeeds_without_credentials :
  BlessnetAPIKey (Config_ sample_client) = ""
  /\ BlessnetAPISecret (Config_ sample_client) = ""
  /\ fst (fst (Authenticate sample_env sample_client sample_world)) = None
  /\ ~ missing_credentials_rejected.
Proof.
  repeat split. intros H.
  apply (H sample_env sample_client sample_world); [now left | reflexivity].
Qed.

(** C7, as amended.  [Authenticate] never reports an error: whatever the
    client, the world and the configured API key and secret, it returns
    [nil] with a non-empty token in the cache, enters the issuing block at
    most once (no retry) and makes no call to the network; the result does
    not depend on the configuration. *)
Theorem Authenticate_never_fails :
  forall (E : Env) (b : BlessnetClient) (w : World) (config : Config),
    let '(err, b', w') := Authenticate E b w in
    err = None
    /\ Token (auth b') <> ""
    /\ fetched w' = fetched w
    /\ exchanges w' <= S (exchanges w)
    /\ Authenticate E (set_Config config b) w
       = (None, set_Config config b', w').
Proof.
  intros E b w config.
  destruct (String.eqb (Token (auth b)) "") eqn:Htok.
  - apply String.eqb_eq in Htok.
    rewrite (Authenticate_empty E b w Htok).
    rewrite (Authenticate_empty E (set_Config config b) w Htok).
    destruct (issued_facts E b w) as [Ht [_ [_ [Hx [Hf _]]]]].
    repeat split; try assumption; try lia.
    rewrite Ht. discriminate.
  - apply String.eqb_neq in Htok.
    destruct (Z.lt_ge_cases (now E (tick w)) (ExpiresAt (auth b)))
      as [Hlt | Hge].
    + rewrite (Authenticate_cached E b w Htok Hlt).
      rewrite (Authenticate_cached E (set_Config config b) w Htok Hlt).
      repeat split; try assumption.
      rewrite exchanges_add_log. simpl. unfold exchanges. simpl. lia.
    + rewrite (Authenticate_expired E b w Htok Hge).
      rewrite (Authenticate_expired E (set_Config config b) w Htok Hge).
      destruct (issued_facts E b (add_tick w)) as [Ht [_ [_ [Hx [Hf _]]]]].
      repeat split; try assumption.
      * rewrite Ht. discriminate.
      * rewrite Hx. unfold exchanges. simpl. lia.
Qed.

Section RefreshFacts.

Context (E : Env) (Hclock : clock_advances E).

Lemma RefreshAuth_times_spec n :
  forall b w,
    expiry_bounded E b w ->
    let '(rs, w') := RefreshAuth_times E n b w in
    List.length rs = n
    /\ Forall (fun eb => fst eb = None /\ Token (auth (snd eb)) <> "") rs
    /\ Sorted Z.lt (ExpiresAt (auth b)
                    :: map (fun eb => ExpiresAt (auth (snd eb))) rs)
    /\ exchanges w' = exchanges w + n.
Proof.
  induction n as [|n IH]; intros b w Hb; cbn [RefreshAuth_times].
  - simpl. repeat split; auto.
  - rewrite RefreshAuth_issues.
    generalize (issued_facts E (set_Token "" b) w)
               (issued_expiry_bounded E (set_Token "" b) w Hclock).
    destruct (issued E (set_Token "" b) w) as [b1 w1]. cbn [fst snd].
    intros [Ht [He [Hk [Hx _]]]] Hb1.
    specialize (IH b1 w1 Hb1).
    destruct (RefreshAuth_times E n b1 w1) as [rs w'].
    destruct IH as [Hlen [Hall [Hsorted Hex]]].
    cbn [List.length map fst snd]. repeat split.
    + now rewrite Hlen.
    + constructor; [|assumption]. simpl. split; [reflexivity|].
      rewrite Ht. discriminate.
    + constructor; [assumption|]. constructor.
      rewrite He. apply (Hb (S (tick w))). lia.
    + rewrite Hex, Hx. lia.
Qed.

End RefreshFacts.

Section RefreshFactsCoarse.

Context (E : Env) (Hclock : clock_never_goes_back E).

Lemma issued_expiry_within_window b w0 :
  expiry_within_window E (fst (issued E b w0)) (snd (issued E b w0)).
Proof.
  intros k Hk.
  destruct (issued_facts E b w0) as [_ [Hexp [Htick _]]].
  rewrite Hexp. rewrite Htick in Hk.
  assert (now E (S (tick w0)) <= now E k)%Z by (apply Hclock; lia).
  lia.
Qed.

Lemma reachable_expiry_within_window b w :
  clock_after_epoch E -> reachable E b w -> expiry_within_window E b w.
Proof.
  intros Hepoch Hreach.
  induction Hreach as [config w | b w Hreach IH | b w Hreach IH
                      | b w w' Hreach IH Hle].
  - intros k _. unfold NewBlessnetClient.
    destruct (TestConnection _ _ _) as [[e|] w1]; simpl;
      specialize (Hepoch k); unfold Hour; lia.
  - destruct (String.eqb (Token (auth b)) "") eqn:Htok.
    + apply String.eqb_eq in Htok. rewrite Authenticate_empty by assumption.
      simpl. apply issued_expiry_within_window.
    + apply String.eqb_neq in Htok.
      destruct (Z.lt_ge_cases (now E (tick w)) (ExpiresAt (auth b)))
        as [Hlt | Hge].
      * rewrite Authenticate_cached by assumption. simpl.
        intros k Hk. apply IH. simpl in Hk. lia.
      * rewrite Authenticate_expired by assumption. simpl.
        apply issued_expiry_within_window.
  - rewrite RefreshAuth_issues. simpl. apply issued_expiry_within_window.
  - intros k Hk. apply IH. lia.
Qed.

Lemma RefreshAuth_times_reissues n :
  forall b w,
    expiry_within_window E b w ->
    let '(rs, w') := RefreshAuth_times E n b w in
    List.length rs = n
    /\ Forall (fun eb =>
                 fst eb = None
                 /\ Token (auth (snd eb)) <> ""
                 /\ exists k,
                      Token (auth (snd eb))
                      = "simulated_token_" ++ FormatRFC3339 E (now E k)) rs
    /\ Sorted Z.le (ExpiresAt (auth b)
                    :: map (fun eb => ExpiresAt (auth (snd eb))) rs)
    /\ exchanges w' = exchanges w + n.
Proof.
  induction n as [|n IH]; intros b w Hb; cbn [RefreshAuth_times].
  - simpl. repeat split; auto.
  - rewrite RefreshAuth_issues.
    generalize (issued_facts E (set_Token "" b) w)
               (issued_expiry_within_window (set_Token "" b) w).
    destruct (issued E (set_Token "" b) w) as [b1 w1]. cbn [fst snd].
    intros [Ht [He [Hk [Hx _]]]] Hb1.
    specialize (IH b1 w1 Hb1).
    destruct (RefreshAuth_times E n b1 w1) as [rs w'].
    destruct IH as [Hlen [Hall [Hsorted Hex]]].
    cbn [List.length map fst snd]. repeat split.
    + now rewrite Hlen.
    + constructor; [|assumption]. simpl. split; [reflexivity|].
      split; [rewrite Ht; discriminate | now exists (tick w)].
    + constructor; [assumption|]. constructor.
      rewrite He. apply (Hb (S (tick w))). lia.
    + rewrite Hex, Hx. lia.
Qed.

End RefreshFactsCoarse.

(** C8 as the specification states it does not hold.  With the sample
    clock, which advances at every reading, two calls of [RefreshAuth] in a
    row store the same token text (both fall in the same second); with a
    clock that stands still between the two calls they also store the same
    expiry. *)
Lemma RefreshAuth_twice_same_credential :
  (let '(_, b1, w1) := RefreshAuth sample_env sample_client sample_world in
   let '(_, b2, _) := RefreshAuth sample_env b1 w1 in
   Token (auth b2) = Token (auth b1))
  /\ (let '(_, b1, w1) :=
        RefreshAuth sample_env_coarse sample_client sample_world in
      let '(_, b2, _) := RefreshAuth sample_env_coarse b1 w1 in
      ExpiresAt (auth b2) = ExpiresAt (auth b1))
  /\ ~ refresh_gives_new_later_credential.
Proof.
  split; [vm_compute; reflexivity|]. split; [vm_compute; reflexivity|].
  intros H.
  specialize (H sample_env sample_client sample_world).
  assert (Hback : clock_never_goes_back sample_env)
    by (intros i j Hij; simpl; unfold sample_clock; lia).
  assert (Hepoch : clock_after_epoch sample_env)
    by (intros i; simpl; unfold sample_clock; lia).
  assert (Hreach : reachable sample_env sample_client sample_world)
    by (unfold sample_client, sample_world; apply reach_new).
  specialize (H Hback Hepoch Hreach).
  vm_compute in H. destruct H as [Hneq _]. apply Hneq. reflexivity.
Qed.

(** C8, as amended.  Take any client the program can be in, and a clock
    that never goes back.  In a run of [n] calls of [RefreshAuth], every
    call enters the issuing block again ([n] more in total), returns
    without error with a non-empty token in the cache, never the emptied
    one, the token being ["simulated_token_"] followed by the RFC3339 text
    of a clock reading, and stores an expiry that is not earlier than the
    expiry cached before that call.  When every later clock reading is a
    strictly later instant, every stored expiry is strictly later than the
    one before. *)
Theorem RefreshAuth_repeated_reissues :
  forall (E : Env) (n : nat) (b : BlessnetClient) (w : World),
    clock_never_goes_back E ->
    clock_after_epoch E ->
    reachable E b w ->
    let '(rs, w') := RefreshAuth_times E n b w in
    List.length rs = n
    /\ Forall (fun eb =>
                 fst eb = None
                 /\ Token (auth (snd eb)) <> ""
                 /\ exists k,
                      Token (auth (snd eb))
                      = "simulated_token_" ++ FormatRFC3339 E (now E k)) rs
    /\ Sorted Z.le (ExpiresAt (auth b)
                    :: map (fun eb => ExpiresAt (auth (snd eb))) rs)
    /\ exchanges w' = exchanges w + n
    /\ (clock_advances E ->
        Sorted Z.lt (ExpiresAt (auth b)
                     :: map (fun eb => ExpiresAt (auth (snd eb))) rs)).
Proof.
  intros E n b w Hback Hepoch Hreach.
  pose proof (RefreshAuth_times_reissues E Hback n b w
                (reachable_expiry_within_window E Hback b w Hepoch Hreach))
    as Hweak.
  pose proof (fun Hadv : clock_advances E =>
                RefreshAuth_times_spec E Hadv n b w
                  (reachable_expiry_bounded E b w Hadv Hepoch Hreach))
    as Hstrict.
  destruct (RefreshAuth_times E n b w) as [rs w'].
  destruct Hweak as [Hlen [Hall [Hsorted Hex]]].
  repeat split; try assumption.
  intros Hadv. apply (Hstrict Hadv).
Qed.

Lemma RefreshAuth_repeated_reissues_witness :
  let '(rs, w') := RefreshAuth_times sample_env 3 sample_client sample_world in
  List.length rs = 3
  /\ Sorted Z.le (ExpiresAt (auth sample_client)
                  :: map (fun eb => ExpiresAt (auth (snd eb))) rs)
  /\ exchanges w' = exchanges sample_world + 3
  /\ Sorted Z.lt (ExpiresAt (auth sample_client)
                  :: map (fun eb => ExpiresAt (auth (snd eb))) rs).
Proof.
  assert (Hback : clock_never_goes_back sample_env)
    by (intros i j Hij; simpl; unfold sample_clock; lia).
  assert (Hadv : clock_advances sample_env)
    by (intros i j Hij; simpl; unfold sample_clock; lia).
  assert (Hepoch : clock_after_epoch sample_env)
    by (intros i; simpl; unfold sample_clock; lia).
  assert (Hreach : reachable sample_env sample_client sample_world)
    by (unfold sample_client, sample_world; apply reach_new).
  pose proof (RefreshAuth_repeated_reissues sample_env 3 sample_client
                sample_world Hback Hepoch Hreach) as H.
  destruct (RefreshAuth_times sample_env 3 sample_client sample_world)
    as [rs w'].
  destruct H as [Hlen [_ [Hle [Hex Hlt]]]].
  repeat split; try assumption. exact (Hlt Hadv).
Defined.

(** ** Worker invocation *)

(** C2, what the code does with a 403 reply.  Whatever the body, with the
    challenge marker or without it, [fetchFromWorker] returns no content and
    the error "worker returned status 403"; the marker only adds a log
    line.  The two cases give the caller the same value. *)
Theorem fetchFromWorker_403_result_ignores_marker :
  forall (E : Env) (targetURL : string) (w : World) (body : string),
    httpDo E (List.length (fetched w)) workerURL targetURL
      = Responded 403 body None ->
    fst (fetchFromWorker E targetURL w) = (None, Some (ErrWorkerStatus 403))
    /\ logged (snd (fetchFromWorker E targetURL w))
       = (logged w
          ++ [LogFetchingFromWorker targetURL; LogWorkerResponseStatus 403;
              LogWorkerNon200 403 body]
          ++ (if Contains body "Cloudflare" then [LogDetectedCloudflare]
              else []))%list.
Proof.
  intros E targetURL w body Hdo. unfold fetchFromWorker.
  cbn [add_log fetched]. rewrite Hdo. cbn.
  destruct (Contains body "Cloudflare"); cbn;
    (split; [reflexivity|]); rewrite <- !app_assoc; reflexivity.
Qed.

Lemma fetchFromWorker_403_result_ignores_marker_witness :
  Contains "<title>Attention Required! | Cloudflare</title>" "Cloudflare" = true
  /\ fst (fetchFromWorker sample_env "https://news.blocked.org" world0)
     = (None, Some (ErrWorkerStatus 403)).
Proof.
  split; [reflexivity|].
  apply (fetchFromWorker_403_result_ignores_marker sample_env
           "https://news.blocked.org" world0
           "<title>Attention Required! | Cloudflare</title>").
  reflexivity.
Defined.

(** ** Proxy resolution *)

(** C6 as the specification states it does not hold: in a run where the
    first worker call would meet a challenge page, the second no connection
    and the third a page, handling a proxied question makes no worker call
    at all. *)
Lemma handleProxiedDomain_contacts_no_endpoint :
  fetched (snd (handleProxiedDomain sample_env new_Msg
                  (mkQuestion "news.blocked.org." TypeA ClassINET) world0))
  = []
  /\ ~ engine_tries_ranked_endpoints.
Proof.
  split; [reflexivity|]. intros H.
  specialize (H sample_env new_Msg
                (mkQuestion "news.blocked.org." TypeA ClassINET) world0
                "https://us-east.bls.dev/" "https://eu-west.bls.dev/"
                "https://ap-east.bls.dev/" "https://news.blocked.org"
                "<title>Attention Required! | Cloudflare</title>"
                "dial tcp: i/o timeout" "<html>ok</html>"
                eq_refl eq_refl eq_refl eq_refl).
  discriminate H.
Qed.

(** C6, as amended.  [handleProxiedDomain] calls no worker and no upstream:
    it adds one log line and appends to the reply the placeholder record
    parsed from ["<name> A 192.168.1.1"] (nothing when the text does not
    parse), whatever the endpoints would answer.  [SendProxyRequest] makes
    exactly one call, to the one URL written in [fetchFromWorker], and its
    result is that call's result: no second endpoint is tried. *)
Theorem handleProxiedDomain_placeholder_answer :
  forall (E : Env) (b : BlessnetClient) (m : Msg) (q : Question)
         (targetURL : string) (w : World),
    (let '(m', w') := handleProxiedDomain E m q w in
     Answer m'
     = (Answer m
        ++ match NewRR E (Name q ++ " A 192.168.1.1") with
           | Some rr => [rr]
           | None => []
           end)%list
     /\ fetched w' = fetched w
     /\ contacted w' = contacted w
     /\ logged w' = (logged w ++ [LogProxyingDomain (Name q)])%list)
    /\ (let '(_, w') := SendProxyRequest E b targetURL w in
        fetched w' = (fetched w ++ [(workerURL, targetURL)])%list
        /\ contacted w' = contacted w).
Proof.
  intros E b m q targetURL w. split.
  - unfold handleProxiedDomain.
    destruct (NewRR E _) as [rr|]; simpl; repeat split.
    now rewrite app_nil_r.
  - unfold SendProxyRequest, fetchFromWorker. cbn [add_log fetched].
    destruct (httpDo E _ _ _) as [cause | code body [cause|]]; cbn;
      [auto | auto |].
    destruct (code =? 200)%Z; cbn; [auto|].
    destruct ((code =? 403)%Z && Contains body "Cloudflare"); cbn; auto.
Qed.

(** ** Concurrent callers of the session cache *)

(** The steps are those of the function: a goroutine that runs alone from
    the start of [Authenticate] ends, within six steps, with the client and
    the world that [Authenticate] returns, the mutex free again. *)
Lemma run_alone_is_Authenticate (E : Env) (b : BlessnetClient) (w : World) :
  Interleaving.run_alone E 6 Interleaving.AtCheck
    (Interleaving.mkShared b false w)
  = let '(_, b', w') := Authenticate E b w in
    (Interleaving.Returned, Interleaving.mkShared b' false w').
Proof.
  unfold Authenticate. cbn.
  destruct (String.eqb (Token (auth b)) ""); cbn.
  - reflexivity.
  - destruct (now E (tick w) <? ExpiresAt (auth b))%Z; reflexivity.
Qed.

(** C9, what the code does.  Starting without a cached token, under the
    schedule in which both goroutines pass the validity test before either
    takes the mutex, both calls return and the issuing block has been
    entered twice: the mutex orders the two writes, it does not make the
    second caller use the first caller's result. *)
Theorem concurrent_Authenticate_two_exchanges :
  forall (E : Env) (b : BlessnetClient) (w : World),
    Token (auth b) = "" ->
    let sys := Interleaving.run E Interleaving.racy_schedule
                 (Interleaving.start b w) in
    Interleaving.pc1 sys = Interleaving.Returned
    /\ Interleaving.pc2 sys = Interleaving.Returned
    /\ Interleaving.locked (Interleaving.shared sys) = false
    /\ exchanges (Interleaving.world (Interleaving.shared sys))
       = S (S (exchanges w)).
Proof.
  intros E b w Htok.
  destruct b as [config url regions node [user pass token expiry]].
  simpl in Htok. subst token. cbn.
  repeat split. unfold exchanges. cbn.
  rewrite !filter_app, !length_app. cbn. lia.
Qed.

Lemma concurrent_Authenticate_two_exchanges_witness :
  exchanges
    (Interleaving.world
       (Interleaving.shared
          (Interleaving.run sample_env Interleaving.racy_schedule
             (Interleaving.start sample_client sample_world))))
  = S (S (exchanges sample_world))
  /\ ~ Interleaving.single_exchange.
Proof.
  pose proof (concurrent_Authenticate_two_exchanges sample_env sample_client
                sample_world eq_refl) as [H1 [H2 [_ Hx]]].
  split; [exact Hx|].
  intros Hclaim.
  specialize (Hclaim sample_env sample_client sample_world
                Interleaving.racy_schedule eq_refl H1 H2).
  rewrite Hx in Hclaim. discriminate Hclaim.
Defined.

(* ------------------------------------------------------------------ *)
(** * Further properties of the classifier *)

Lemma substring_prefix (p s : string) :
  substring 0 (String.length p) (p ++ s) = p.
Proof.
  induction p as [|c p IH]; simpl.
  - destruct s; reflexivity.
  - now rewrite IH.
Qed.

(** Trimming removes a suffix that was appended. *)
Lemma TrimSuffix_append (d suffix : string) :
  TrimSuffix (d ++ suffix) suffix = d.
Proof.
  unfold TrimSuffix.
  assert (H : HasSuffix (d ++ suffix) suffix = true)
    by (apply HasSuffix_spec; now exists d).
  rewrite H, length_append.
  replace (String.length d + String.length suffix - String.length suffix)
    with (String.length d) by lia.
  apply substring_prefix.
Qed.

Lemma TrimSuffix_without (d suffix : string) :
  HasSuffix d suffix = false -> TrimSuffix d suffix = d.
Proof. unfold TrimSuffix. now intros ->. Qed.

(** A string that ends with [s] ends with whatever [s] ends with. *)
Lemma HasSuffix_trans (x s t : string) :
  HasSuffix x s = true -> HasSuffix s t = true -> HasSuffix x t = true.
Proof.
  rewrite !HasSuffix_spec. intros [p ->] [p' ->].
  exists (p ++ p'). now rewrite append_assoc.
Qed.

(** The classification depends on which suffixes are configured, not on
    their order or repetition in [proxy_domains], and configuring more
    suffixes never turns a proxied name into a passthrough one. *)
Theorem classify_monotone_in_suffixes :
  forall (S S' : list string) (qname : string),
    incl S S' ->
    (classify S qname = Proxied -> classify S' qname = Proxied)
    /\ (incl S' S -> classify S qname = classify S' qname).
Proof.
  intros S S' qname Hincl. unfold classify.
  set (d := TrimSuffix qname ".").
  assert (Hmono : forall A B, incl A B ->
                    isProxyDomain A d = true -> isProxyDomain B d = true).
  { intros A B HAB HA. apply isProxyDomain_spec in HA as [s [Hin Hs]].
    apply isProxyDomain_spec. exists s. split; [now apply HAB | assumption]. }
  split.
  - destruct (isProxyDomain S d) eqn:HS; [|discriminate].
    now rewrite (Hmono S S' Hincl HS).
  - intros Hincl'.
    destruct (isProxyDomain S d) eqn:HS.
    + now rewrite (Hmono S S' Hincl HS).
    + destruct (isProxyDomain S' d) eqn:HS'; [|reflexivity].
      rewrite (Hmono S' S Hincl' HS') in HS. discriminate.
Qed.

Lemma classify_monotone_in_suffixes_witness :
  classify ["restricted.org"; "blocked.org"] "news.blocked.org." = Proxied
  /\ classify ["blocked.org"] "news.blocked.org."
     = classify ["blocked.org"; "blocked.org"] "news.blocked.org.".
Proof.
  split.
  - refine (proj1 (classify_monotone_in_suffixes ["blocked.org"]
                     ["restricted.org"; "blocked.org"] "news.blocked.org." _)
                  eq_refl).
    intros s [<-|[]]. right. now left.
  - refine (proj2 (classify_monotone_in_suffixes ["blocked.org"]
                     ["blocked.org"; "blocked.org"] "news.blocked.org." _) _).
    + intros s [<-|[]]. now left.
    + intros s [<-|[<-|[]]]; now left.
Defined.

(** An empty string among the configured suffixes makes every name
    proxied: every string ends with the empty string. *)
Theorem empty_suffix_proxies_everything :
  forall (S : list string) (qname : string),
    In "" S -> classify S qname = Proxied.
Proof.
  intros S qname Hin. unfold classify.
  assert (H : isProxyDomain S (TrimSuffix qname ".") = true).
  { apply isProxyDomain_spec. exists "". split; [assumption|].
    apply HasSuffix_spec. exists (TrimSuffix qname ".").
    generalize (TrimSuffix qname "."). intros s.
    induction s as [|c s IH]; simpl; [reflexivity | now rewrite <- IH]. }
  now rewrite H.
Qed.

Lemma empty_suffix_proxies_everything_witness :
  classify ["blocked.org"; ""] "example.com." = Proxied.
Proof.
  apply (empty_suffix_proxies_everything ["blocked.org"; ""] "example.com.").
  right. now left.
Defined.

(** The final dot of a fully qualified name plays no part: a name is
    classified with its final dot as it is without it. *)
Theorem classify_ignores_final_dot :
  forall (S : list string) (d : string),
    HasSuffix d "." = false ->
    classify S (d ++ ".") = classify S d.
Proof.
  intros S d Hd. unfold classify.
  now rewrite TrimSuffix_append, TrimSuffix_without.
Qed.

Lemma classify_ignores_final_dot_witness :
  classify ["blocked.org"] ("news.blocked.org" ++ ".")
  = classify ["blocked.org"] "news.blocked.org".
Proof.
  apply (classify_ignores_final_dot ["blocked.org"] "news.blocked.org").
  reflexivity.
Defined.

(** Only one final dot is removed from the question name and none from the
    configured suffixes: when every configured suffix is written with a
    final dot, no fully qualified name is proxied. *)
Theorem dotted_suffixes_match_no_fqdn :
  forall (S : list string) (d : string),
    HasSuffix d "." = false ->
    (forall s, In s S -> HasSuffix s "." = true) ->
    classify S (d ++ ".") = Passthrough.
Proof.
  intros S d Hd Hdots. unfold classify. rewrite TrimSuffix_append.
  destruct (isProxyDomain S d) eqn:HS; [|reflexivity].
  apply isProxyDomain_spec in HS as [s [Hin Hs]].
  rewrite (HasSuffix_trans d s "." Hs (Hdots s Hin)) in Hd. discriminate.
Qed.

Lemma dotted_suffixes_match_no_fqdn_witness :
  classify ["blocked.org."] ("news.blocked.org" ++ ".") = Passthrough.
Proof.
  apply (dotted_suffixes_match_no_fqdn ["blocked.org."] "news.blocked.org").
  - reflexivity.
  - intros s [<-|[]]. reflexivity.
Defined.

(* ------------------------------------------------------------------ *)
(** * Further properties of the upstream resolver and the router *)

Lemma answers_appended_refl m : answers_appended m m.
Proof.
  unfold answers_appended. repeat split. exists []. now rewrite app_nil_r.
Qed.

Lemma answers_appended_trans m1 m2 m3 :
  answers_appended m1 m2 -> answers_appended m2 m3 -> answers_appended m1 m3.
Proof.
  unfold answers_appended.
  intros [? [? [? [? [? [? [? [? [r1 Hr1]]]]]]]]]
         [? [? [? [? [? [? [? [? [r2 Hr2]]]]]]]]].
  repeat split; try congruence.
  exists (r1 ++ r2)%list. now rewrite Hr2, Hr1, app_assoc.
Qed.

Lemma answers_appended_append rrs m : answers_appended m (append_Answer rrs m).
Proof. unfold answers_appended. simpl. repeat split. now exists rrs. Qed.

Lemma only_exchanges_refl n w : only_exchanges n w w.
Proof.
  unfold only_exchanges. repeat split. exists [].
  rewrite app_nil_r. split; [reflexivity | simpl; lia].
Qed.

Lemma only_exchanges_trans n1 n2 w1 w2 w3 :
  only_exchanges n1 w1 w2 -> only_exchanges n2 w2 w3 ->
  only_exchanges (n1 + n2) w1 w3.
Proof.
  unfold only_exchanges.
  intros [? [? [? [a1 [Ha1 L1]]]]] [? [? [? [a2 [Ha2 L2]]]]].
  repeat split; try congruence.
  exists (a1 ++ a2)%list. rewrite Ha2, Ha1, app_assoc, length_app.
  split; [reflexivity | lia].
Qed.

Lemma only_exchanges_weaken n n' w w' :
  n <= n' -> only_exchanges n w w' -> only_exchanges n' w w'.
Proof.
  unfold only_exchanges. intros Hn [? [? [? [a [Ha L]]]]].
  repeat split; try assumption. exists a. split; [assumption | lia].
Qed.

Lemma only_exchanges_add_log n l w : only_exchanges n w (add_log l w).
Proof.
  unfold only_exchanges. simpl. repeat split. exists [].
  rewrite app_nil_r. split; [reflexivity | simpl; lia].
Qed.

Lemma all_fail_nil E w q : all_fail E w q [].
Proof. intros i ns Hi. destruct i; discriminate. Qed.

Lemma all_fail_cons E w w1 q ns rest :
  upstream_fails (exchange E (List.length (contacted w)) (upstream_addr ns)
                           (upstream_question q)) ->
  contacted w1 = (contacted w ++ [upstream_addr ns])%list ->
  all_fail E w1 q rest ->
  all_fail E w q (ns :: rest).
Proof.
  intros Hhead Hc Hrest i a Hi. destruct i as [|i]; simpl in Hi.
  - injection Hi as <-. now rewrite Nat.add_0_r.
  - specialize (Hrest i a Hi). rewrite Hc, length_app in Hrest. simpl in Hrest.
    now replace (List.length (contacted w) + S i)
      with (List.length (contacted w) + 1 + i) by lia.
Qed.

Section ResolverFacts.

Context (E : Env).

(** Whether the next exchange with [ns] succeeds in the sense of the loop
    (no error, a reply, at least one answer) or fails. *)
Lemma exchange_cases (n : nat) (ns : string) (q : Question) :
  let res := exchange E n (upstream_addr ns) (upstream_question q) in
  (exists r, ex_err res = None /\ ex_r res = Some r /\ Answer r <> [])
  \/ upstream_fails res.
Proof.
  intros res. unfold upstream_fails.
  destruct (ex_err res) as [cause|] eqn:Herr.
  - right. left. discriminate.
  - destruct (ex_r res) as [r|] eqn:Hr.
    + destruct (Answer r) as [|rr rrs] eqn:Ha.
      * right. right. intros r' Hr'. now injection Hr' as <-.
      * left. exists r. rewrite Ha. repeat split. discriminate.
    + right. right. discriminate.
Qed.

Lemma forwardToUpstream_answering_head ns rest m q w r :
  ex_err (exchange E (List.length (contacted w)) (upstream_addr ns)
                   (upstream_question q)) = None ->
  ex_r (exchange E (List.length (contacted w)) (upstream_addr ns)
                 (upstream_question q)) = Some r ->
  Answer r <> [] ->
  forwardToUpstream E (ns :: rest) m q w
  = (append_Answer (Answer r) m, add_contact (upstream_addr ns) w).
Proof.
  intros Herr Hr Ha. simpl. rewrite Herr, Hr.
  destruct (Answer r); [congruence | reflexivity].
Qed.

(** The two ways in which [forwardToUpstream] ends. *)
Lemma forwardToUpstream_cases nss :
  forall m q w,
    (fst (forwardToUpstream E nss m q w) = m
     /\ all_fail E w q nss
     /\ contacted (snd (forwardToUpstream E nss m q w))
        = (contacted w ++ map upstream_addr nss)%list)
    \/ (exists pre ns post r,
           nss = (pre ++ ns :: post)%list
           /\ all_fail E w q pre
           /\ ex_err (exchange E (List.length (contacted w) + List.length pre)
                               (upstream_addr ns) (upstream_question q))
              = None
           /\ ex_r (exchange E (List.length (contacted w) + List.length pre)
                             (upstream_addr ns) (upstream_question q))
              = Some r
           /\ Answer r <> []
           /\ fst (forwardToUpstream E nss m q w) = append_Answer (Answer r) m
           /\ contacted (snd (forwardToUpstream E nss m q w))
              = (contacted w ++ map upstream_addr (pre ++ [ns]))%list).
Proof.
  induction nss as [|ns rest IH]; intros m q w.
  - left. simpl. rewrite app_nil_r. auto using all_fail_nil.
  - destruct (exchange_cases (List.length (contacted w)) ns q)
      as [[r [Herr [Hr Ha]]] | Hfail].
    + right. exists [], ns, rest, r. simpl List.length. rewrite Nat.add_0_r.
      rewrite (forwardToUpstream_answering_head ns rest m q w r Herr Hr Ha).
      repeat split; auto using all_fail_nil.
    + destruct (forwardToUpstream_failing_head E ns rest m q w Hfail)
        as [w1 [Hstep [Hc _]]].
      rewrite Hstep.
      assert (Hlen : List.length (contacted w1)
                     = S (List.length (contacted w)))
        by (rewrite Hc, length_app; simpl; lia).
      destruct (IH m q w1) as [[Hm [Hall Hct]]
                              | [pre [ns' [post [r [Hsplit [Hall [Herr
                                  [Hr [Ha [Hm Hct]]]]]]]]]]].
      * left. repeat split; [assumption | |].
        -- now apply (all_fail_cons E w w1 q ns rest).
        -- rewrite Hct, Hc. simpl. now rewrite <- app_assoc.
      * right. exists (ns :: pre), ns', post, r. simpl List.length.
        rewrite Hlen in Herr, Hr.
        replace (List.length (contacted w) + S (List.length pre))
          with (S (List.length (contacted w)) + List.length pre) by lia.
        repeat split; try assumption.
        -- simpl. now rewrite Hsplit.
        -- now apply (all_fail_cons E w w1 q ns pre).
        -- rewrite Hct, Hc. simpl. now rewrite <- app_assoc.
Qed.

(** What [forwardToUpstream] leaves alone. *)
Lemma forwardToUpstream_frame nss :
  forall m q w,
    answers_appended m (fst (forwardToUpstream E nss m q w))
    /\ only_exchanges (List.length nss) w (snd (forwardToUpstream E nss m q w)).
Proof.
  induction nss as [|ns rest IH]; intros m q w.
  - simpl. split; [apply answers_appended_refl | apply only_exchanges_refl].
  - assert (Hone : only_exchanges 1 w (add_contact (upstream_addr ns) w)).
    { unfold only_exchanges. simpl. repeat split.
      exists [upstream_addr ns]. split; [reflexivity | simpl; lia]. }
    assert (Hgo : forall w1, only_exchanges 1 w w1 ->
              answers_appended m (fst (forwardToUpstream E rest m q w1))
              /\ only_exchanges (S (List.length rest)) w
                   (snd (forwardToUpstream E rest m q w1))).
    { intros w1 H1. destruct (IH m q w1) as [Ha Ho]. split; [assumption|].
      apply (only_exchanges_trans 1 _ w w1); assumption. }
    cbn [forwardToUpstream List.length].
    destruct (ex_err _) as [cause|].
    + apply Hgo.
      apply (only_exchanges_weaken (1 + 0)); [lia|].
      eapply only_exchanges_trans; [exact Hone | apply only_exchanges_add_log].
    + destruct (ex_r _) as [r|]; [|now apply Hgo].
      destruct (0 <? _)%nat; [|now apply Hgo].
      simpl. split; [apply answers_appended_append|].
      apply (only_exchanges_weaken 1); [lia | exact Hone].
Qed.

End ResolverFacts.

(** For every environment, nameserver list, message and question,
    [forwardToUpstream] ends in one of two ways.  Either it has asked every
    configured upstream, each has failed, and the message is returned as it
    was; or the list splits at the first upstream that replied without error
    and with at least one answer, all upstreams before it have failed, the
    message has that reply's answers appended and nothing from any other
    upstream, and no later upstream has been asked. *)
Theorem forwardToUpstream_outcome :
  forall (E : Env) (nss : list string) (m : Msg) (q : Question) (w : World),
    let '(m', w') := forwardToUpstream E nss m q w in
    (m' = m
     /\ all_fail E w q nss
     /\ contacted w' = (contacted w ++ map upstream_addr nss)%list)
    \/ (exists pre ns post r,
           nss = (pre ++ ns :: post)%list
           /\ all_fail E w q pre
           /\ ex_err (exchange E (List.length (contacted w) + List.length pre)
                               (upstream_addr ns) (upstream_question q))
              = None
           /\ ex_r (exchange E (List.length (contacted w) + List.length pre)
                             (upstream_addr ns) (upstream_question q))
              = Some r
           /\ Answer r <> []
           /\ m' = append_Answer (Answer r) m
           /\ contacted w'
              = (contacted w ++ map upstream_addr (pre ++ [ns]))%list).
Proof.
  intros E nss m q w.
  pose proof (forwardToUpstream_cases E nss m q w) as H.
  destruct (forwardToUpstream E nss m q w) as [m' w']. exact H.
Qed.

(** [forwardToUpstream] only appends to the answer section (id, flags,
    response code and question of the message stay as they are), makes at
    most as many exchanges as there are configured nameservers, and does
    nothing else to the world: no clock reading, no HTTP call, no reply
    written. *)
Theorem forwardToUpstream_touches_answers_only :
  forall (E : Env) (nss : list string) (m : Msg) (q : Question) (w : World),
    let '(m', w') := forwardToUpstream E nss m q w in
    answers_appended m m' /\ only_exchanges (List.length nss) w w'.
Proof.
  intros E nss m q w.
  pose proof (forwardToUpstream_frame E nss m q w) as H.
  destruct (forwardToUpstream E nss m q w) as [m' w']. exact H.
Qed.

Section HandlerFacts.

Context (E : Env) (config : Config).

Lemma handleProxiedDomain_frame m q w :
  answers_appended m (fst (handleProxiedDomain E m q w))
  /\ only_exchanges 0 w (snd (handleProxiedDomain E m q w)).
Proof.
  unfold handleProxiedDomain. destruct (NewRR E _) as [rr|]; simpl.
  - split; [apply answers_appended_append | apply only_exchanges_add_log].
  - split; [apply answers_appended_refl | apply only_exchanges_add_log].
Qed.

Lemma route_question_frame m w q :
  answers_appended m (fst (route_question E config (m, w) q))
  /\ only_exchanges (List.length (Nameservers config)) w
       (snd (route_question E config (m, w) q)).
Proof.
  unfold route_question.
  destruct (Qtype q =? TypeA)%Z;
    [|split; [apply answers_appended_refl | apply only_exchanges_refl]].
  destruct (isProxyDomain _ _).
  - destruct (handleProxiedDomain_frame m q (add_log (LogQueryFor (Name q)) w))
      as [Ha Ho].
    split; [assumption|].
    apply (only_exchanges_weaken (0 + 0)); [lia|].
    eapply only_exchanges_trans; [apply only_exchanges_add_log | exact Ho].
  - destruct (forwardToUpstream_frame E (Nameservers config) m q
                (add_log (LogQueryFor (Name q)) w)) as [Ha Ho].
    split; [assumption|].
    apply (only_exchanges_trans 0 _ w (add_log (LogQueryFor (Name q)) w));
      [apply only_exchanges_add_log | exact Ho].
Qed.

(** The reply under construction and the loop over its questions. *)
Lemma handleDNSRequest_unfold r w :
  let m0 := set_Compress false (SetReply new_Msg r) in
  handleDNSRequest E config r w
  = if (Opcode r =? OpcodeQuery)%Z then
      match Question_ r with
      | q :: _ =>
          WriteMsg (fst (route_question E config (m0, w) q))
                   (snd (route_question E config (m0, w) q))
      | [] => WriteMsg m0 w
      end
    else WriteMsg m0 w.
Proof.
  intros m0. unfold handleDNSRequest. fold m0.
  destruct (Opcode r =? OpcodeQuery)%Z; [|reflexivity].
  assert (HQ : Question_ m0 = match Question_ r with
                              | q :: _ => [q]
                              | [] => []
                              end) by reflexivity.
  rewrite HQ. destruct (Question_ r) as [|q rest]; cbn [fold_left];
    [reflexivity|].
  now destruct (route_question E config (m0, w) q).
Qed.

End HandlerFacts.

(** Whatever the request, the environment and the configuration, the one
    reply that [handleDNSRequest] writes carries the id and the opcode of
    the request, the response bit, the success response code, no
    compression and at most the first question of the request; and up to
    that write the handler has made at most as many DNS exchanges as there
    are configured nameservers, no HTTP call and no clock reading. *)
Theorem handleDNSRequest_reply_shape :
  forall (E : Env) (config : Config) (r : Msg) (w : World),
    exists reply w1,
      handleDNSRequest E config r w = WriteMsg reply w1
      /\ only_exchanges (List.length (Nameservers config)) w w1
      /\ Id reply = Id r
      /\ Response reply = true
      /\ Opcode reply = Opcode r
      /\ Rcode reply = RcodeSuccess
      /\ Compress reply = false
      /\ Question_ reply = firstn 1 (Question_ r).
Proof.
  intros E config r w. rewrite handleDNSRequest_unfold.
  set (m0 := set_Compress false (SetReply new_Msg r)).
  assert (Hbare : exists reply w1,
             WriteMsg m0 w = WriteMsg reply w1
             /\ only_exchanges (List.length (Nameservers config)) w w1
             /\ Id reply = Id r /\ Response reply = true
             /\ Opcode reply = Opcode r /\ Rcode reply = RcodeSuccess
             /\ Compress reply = false
             /\ Question_ reply = firstn 1 (Question_ r)).
  { exists m0, w. split; [reflexivity|].
    split; [apply (only_exchanges_weaken 0); [lia | apply only_exchanges_refl]|].
    repeat split; subst m0; simpl; now destruct (Question_ r). }
  destruct (Opcode r =? OpcodeQuery)%Z; [|exact Hbare].
  destruct (Question_ r) as [|q rest] eqn:Hqs; [exact Hbare|].
  destruct (route_question_frame E config m0 w q)
    as [[Hid [Hresp [Hop [_ [_ [Hrc [Hcomp [Hq _]]]]]]]] Ho].
  eexists _, _. split; [reflexivity|]. split; [exact Ho|].
  rewrite Hid, Hresp, Hop, Hrc, Hcomp, Hq. subst m0. simpl.
  rewrite Hqs. repeat split.
Qed.

(** A type-A query for a proxied name is answered from the placeholder
    alone: the reply carries the record parsed from
    ["<name> A 192.168.1.1"] (or nothing when it does not parse), and the
    name is never sent to an upstream nameserver nor to a worker. *)
Theorem proxied_query_never_reaches_upstream :
  forall (E : Env) (config : Config) (r : Msg) (q : Question)
         (rest : list Question) (w : World),
    Opcode r = OpcodeQuery ->
    Question_ r = q :: rest ->
    Qtype q = TypeA ->
    classify (ProxyDomains config) (Name q) = Proxied ->
    let w' := handleDNSRequest E config r w in
    exists reply,
      written w' = (written w ++ [reply])%list
      /\ Answer reply = match NewRR E (Name q ++ " A 192.168.1.1") with
                        | Some rr => [rr]
                        | None => []
                        end
      /\ contacted w' = contacted w
      /\ fetched w' = fetched w
      /\ logged w'
         = (logged w ++ [LogQueryFor (Name q); LogProxyingDomain (Name q)])%list.
Proof.
  intros E config r q rest w Hop Hqs Hty Hroute.
  unfold classify in Hroute.
  destruct (isProxyDomain (ProxyDomains config) (TrimSuffix (Name q) "."))
    eqn:Hproxy; [|discriminate].
  cbv zeta. rewrite handleDNSRequest_unfold, Hop, Hqs. simpl Z.eqb. cbv iota.
  unfold route_question. rewrite Hty. simpl Z.eqb. cbv iota.
  rewrite Hproxy. unfold handleProxiedDomain.
  destruct (NewRR E _) as [rr|]; simpl;
    eexists; repeat split; rewrite <- app_assoc; reflexivity.
Qed.

Lemma proxied_query_never_reaches_upstream_witness :
  exists reply,
    written (handleDNSRequest sample_env sample_config
               (sample_query "news.blocked.org." TypeA) world0) = [reply]
    /\ Answer reply = [mkRR "news.blocked.org." TypeA "192.168.1.1"]
    /\ contacted (handleDNSRequest sample_env sample_config
                    (sample_query "news.blocked.org." TypeA) world0) = [].
Proof.
  destruct (proxied_query_never_reaches_upstream sample_env sample_config
              (sample_query "news.blocked.org." TypeA)
              (mkQuestion "news.blocked.org." TypeA ClassINET) [] world0
              eq_refl eq_refl eq_refl eq_refl)
    as [reply [Hw [Ha [Hc _]]]].
  exists reply. repeat split; assumption.
Defined.

(** A type-A query for a name that is not proxied, when the upstreams
    before [ns] fail and [ns] replies with answers: the reply written
    carries exactly the answer records of [ns], and the upstreams asked are
    those up to [ns], in configuration order. *)
Theorem passthrough_query_relays_first_answer :
  forall (E : Env) (config : Config) (r : Msg) (q : Question)
         (rest : list Question) (w : World)
         (pre : list string) (ns : string) (post : list string) (a : Msg),
    Opcode r = OpcodeQuery ->
    Question_ r = q :: rest ->
    Qtype q = TypeA ->
    classify (ProxyDomains config) (Name q) = Passthrough ->
    Nameservers config = (pre ++ ns :: post)%list ->
    all_fail E w q pre ->
    exchange E (List.length (contacted w) + List.length pre)
             (upstream_addr ns) (upstream_question q)
      = mkExchange (Some a) None ->
    Answer a <> [] ->
    let w' := handleDNSRequest E config r w in
    exists reply,
      written w' = (written w ++ [reply])%list
      /\ Answer reply = Answer a
      /\ Rcode reply = RcodeSuccess
      /\ Id reply = Id r
      /\ contacted w'
         = (contacted w ++ map upstream_addr (pre ++ [ns]))%list.
Proof.
  intros E config r q rest w pre ns post a Hop Hqs Hty Hroute Hnss Hpre Hns Ha.
  unfold classify in Hroute.
  destruct (isProxyDomain (ProxyDomains config) (TrimSuffix (Name q) "."))
    eqn:Hproxy; [discriminate|].
  cbv zeta. rewrite handleDNSRequest_unfold, Hop, Hqs. simpl Z.eqb. cbv iota.
  unfold route_question. rewrite Hty. simpl Z.eqb. cbv iota.
  rewrite Hproxy, Hnss.
  set (m0 := set_Compress false (SetReply new_Msg r)).
  set (w0 := add_log (LogQueryFor (Name q)) w).
  destruct (forwardToUpstream_failing_prefix E pre (ns :: post) m0 q w0)
    as [w1 [Hrun [Hc [_ [Hw _]]]]].
  { exact Hpre. }
  assert (Hlen : List.length (contacted w1)
                 = List.length (contacted w) + List.length pre).
  { rewrite Hc, length_app, length_map. reflexivity. }
  rewrite Hrun.
  rewrite (forwardToUpstream_answering_head E ns post m0 q w1 a);
    [| rewrite Hlen, Hns; reflexivity
     | rewrite Hlen, Hns; reflexivity
     | exact Ha ].
  exists (append_Answer (Answer a) m0). simpl.
  rewrite Hw, Hc, map_app, <- app_assoc. repeat split.
Qed.

Lemma passthrough_query_relays_first_answer_witness :
  exists reply,
    written (handleDNSRequest sample_env sample_config
               (sample_query "example.com." TypeA) world0) = [reply]
    /\ Answer reply = [mkRR "example.com." TypeA "93.184.216.34"]
    /\ contacted (handleDNSRequest sample_env sample_config
                    (sample_query "example.com." TypeA) world0)
       = ["10.0.0.1:53"; "10.0.0.2:53"; "8.8.8.8:53"].
Proof.
  destruct (passthrough_query_relays_first_answer sample_env sample_config
              (sample_query "example.com." TypeA)
              (mkQuestion "example.com." TypeA ClassINET) [] world0
              ["10.0.0.1"; "10.0.0.2"] "8.8.8.8" ["1.1.1.1"]
              (sample_answer (mkQuestion "example.com." TypeA ClassINET))
              eq_refl eq_refl eq_refl eq_refl eq_refl)
    as [reply [Hw [Ha [_ [_ Hc]]]]].
  - intros i a Hi. destruct i as [|[|i]]; simpl in Hi.
    + left. simpl. discriminate.
    + right. simpl. intros r Hr. injection Hr as <-. reflexivity.
    + destruct i; discriminate.
  - reflexivity.
  - simpl. discriminate.
  - exists reply. repeat split; assumption.
Defined.

(* ------------------------------------------------------------------ *)
(** * Further properties of the worker client *)

Lemma skipn_app_exact {A : Type} (l l' : list A) :
  skipn (List.length l) (l ++ l') = l'.
Proof. induction l as [|x l IH]; simpl; [reflexivity | exact IH]. Qed.

Section WorkerFacts.

Context (E : Env).

(** [fetchFromWorker] case by case on what the HTTP call produces. *)
Lemma fetchFromWorker_cases targetURL w :
  let res := httpDo E (List.length (fetched w)) workerURL targetURL in
  let w1 := add_fetch workerURL targetURL
              (add_log (LogFetchingFromWorker targetURL) w) in
  fetchFromWorker E targetURL w
  = match res with
    | DoFailed cause => ((None, Some (ErrFetchingFromWorker cause)), w1)
    | Responded code body (Some cause) =>
        ((None, Some (ErrReadingWorkerResponse cause)),
         add_log (LogWorkerResponseStatus code) w1)
    | Responded code body None =>
        if (code =? 200)%Z then
          ((Some body, None), add_log (LogWorkerResponseStatus code) w1)
        else
          ((None, Some (ErrWorkerStatus code)),
           let w2 := add_log (LogWorkerNon200 code body)
                       (add_log (LogWorkerResponseStatus code) w1) in
           if (code =? 403)%Z && Contains body "Cloudflare"
           then add_log LogDetectedCloudflare w2 else w2)
    end.
Proof.
  unfold fetchFromWorker. cbn [add_log fetched].
  destruct (httpDo E _ _ _) as [cause | code body [cause|]]; try reflexivity.
  destruct (code =? 200)%Z; reflexivity.
Qed.

Lemma fetchFromWorker_fetched targetURL w :
  fetched (snd (fetchFromWorker E targetURL w))
  = (fetched w ++ [(workerURL, targetURL)])%list.
Proof.
  rewrite fetchFromWorker_cases.
  destruct (httpDo E _ _ _) as [cause | code body [cause|]];
    try reflexivity.
  destruct (code =? 200)%Z; [reflexivity|].
  destruct ((code =? 403)%Z && Contains body "Cloudflare"); reflexivity.
Qed.

End WorkerFacts.

(** [fetchFromWorker] makes exactly one HTTP call, to the URL written in
    the function, and returns either content or an error, never both and
    never neither: content exactly when the call produced status 200 and a
    body that could be read (any other status, 2xx included, is an error),
    and then the content is that body unchanged. *)
Theorem fetchFromWorker_content_iff_status_200 :
  forall (E : Env) (targetURL : string) (w : World),
    let '(body, err, w') := fetchFromWorker E targetURL w in
    fetched w' = (fetched w ++ [(workerURL, targetURL)])%list
    /\ contacted w' = contacted w /\ written w' = written w
    /\ tick w' = tick w
    /\ ((exists page,
            body = Some page /\ err = None
            /\ httpDo E (List.length (fetched w)) workerURL targetURL
               = Responded 200 page None)
        \/ (body = None /\ err <> None
            /\ forall page,
                 httpDo E (List.length (fetched w)) workerURL targetURL
                 <> Responded 200 page None)).
Proof.
  intros E targetURL w. rewrite fetchFromWorker_cases.
  destruct (httpDo E _ _ _) as [cause | code body [cause|]].
  - simpl. repeat split. right. repeat split; discriminate.
  - simpl. repeat split. right. repeat split; discriminate.
  - destruct (code =? 200)%Z eqn:Hcode.
    + apply Z.eqb_eq in Hcode. subst code. simpl. repeat split.
      left. exists body. auto.
    + apply Z.eqb_neq in Hcode.
      destruct ((code =? 403)%Z && Contains body "Cloudflare"); simpl;
        repeat split; right; repeat split; try discriminate;
        intros page Hpage; injection Hpage as Hc _; contradiction.
Qed.

(** The line "Detected Cloudflare protection..." is logged exactly when
    the worker replied with status 403 and a readable body that contains
    the text "Cloudflare": not for 503 or any other status, and not when
    the body could not be read. *)
Theorem fetchFromWorker_detects_cloudflare_iff :
  forall (E : Env) (targetURL : string) (w : World),
    In LogDetectedCloudflare
       (new_log w (snd (fetchFromWorker E targetURL w)))
    <-> exists body,
          httpDo E (List.length (fetched w)) workerURL targetURL
            = Responded 403 body None
          /\ Contains body "Cloudflare" = true.
Proof.
  intros E targetURL w. rewrite fetchFromWorker_cases. unfold new_log.
  destruct (httpDo E _ _ _) as [cause | code body [cause|]].
  - simpl. rewrite skipn_app_exact. simpl. split.
    + intros [H|[]]. discriminate H.
    + intros [b [H _]]. discriminate H.
  - simpl. rewrite <- app_assoc, skipn_app_exact. simpl. split.
    + intros [H|[H|[]]]; discriminate H.
    + intros [b [H _]]. discriminate H.
  - destruct (code =? 200)%Z eqn:H200.
    + simpl. rewrite <- app_assoc, skipn_app_exact. simpl. split.
      * intros [H|[H|[]]]; discriminate H.
      * intros [b [H _]]. injection H as -> _. discriminate H200.
    + destruct (code =? 403)%Z eqn:H403; simpl.
      * apply Z.eqb_eq in H403. subst code.
        destruct (Contains body "Cloudflare") eqn:Hc; simpl;
          rewrite <- !app_assoc, skipn_app_exact; simpl; split.
        -- intros _. exists body. auto.
        -- intros _. auto.
        -- intros [H|[H|[H|[]]]]; discriminate H.
        -- intros [b [H Hb]]. injection H as <-. congruence.
      * rewrite <- !app_assoc, skipn_app_exact. simpl. split.
        -- intros [H|[H|[H|[]]]]; discriminate H.
        -- intros [b [H _]]. injection H as -> _. discriminate H403.
Qed.

(** The worker URL of the configuration is never contacted.  Creating the
    client, testing the connection, [SendProxyRequest] and [FetchPage] each
    make one HTTP call, and it goes to the URL written in [fetchFromWorker],
    whatever [blessnet_worker_url] and the client's [WorkerURL] are. *)
Theorem worker_calls_ignore_configured_url :
  forall (E : Env) (config : Config) (b : BlessnetClient)
         (targetURL : string) (w : World),
    fetched (snd (NewBlessnetClient E config w))
      = (fetched w ++ [(workerURL, "https://example.com")])%list
    /\ fetched (snd (TestConnection E b w))
       = (fetched w ++ [(workerURL, "https://example.com")])%list
    /\ fetched (snd (SendProxyRequest E b targetURL w))
       = (fetched w ++ [(workerURL, targetURL)])%list
    /\ fetched (snd (FetchPage E b targetURL w))
       = (fetched w ++ [(workerURL, targetURL)])%list.
Proof.
  intros E config b targetURL w.
  assert (Htest : forall b0 w0,
             fetched (snd (TestConnection E b0 w0))
             = (fetched w0 ++ [(workerURL, "https://example.com")])%list).
  { intros b0 w0. unfold TestConnection.
    pose proof (fetchFromWorker_fetched E "https://example.com" w0) as H.
    now destruct (fetchFromWorker E "https://example.com" w0)
      as [[body err] w']. }
  repeat split;
    [| apply Htest | apply fetchFromWorker_fetched
     | apply fetchFromWorker_fetched].
  unfold NewBlessnetClient.
  match goal with
  | |- context [TestConnection E ?b0 ?w0] =>
      specialize (Htest b0 w0); destruct (TestConnection E b0 w0) as [[e|] w']
  end; simpl in *; exact Htest.
Qed.

(* ------------------------------------------------------------------ *)
(** * Further properties of the client and its session cache *)

Lemma fetchFromWorker_quiet (E : Env) (targetURL : string) (w : World) :
  tick (snd (fetchFromWorker E targetURL w)) = tick w
  /\ exchanges (snd (fetchFromWorker E targetURL w)) = exchanges w.
Proof.
  rewrite fetchFromWorker_cases.
  destruct (httpDo E _ _ _) as [cause | code body [cause|]];
    [| | destruct (code =? 200)%Z;
         [| destruct ((code =? 403)%Z && Contains body "Cloudflare")]];
    (split; [reflexivity|]); unfold exchanges; simpl;
    rewrite ?filter_app, ?length_app; simpl; lia.
Qed.

Lemma NewBlessnetClient_quiet (E : Env) (config : Config) (w : World) :
  tick (snd (NewBlessnetClient E config w)) = tick w
  /\ exchanges (snd (NewBlessnetClient E config w)) = exchanges w.
Proof.
  unfold NewBlessnetClient, TestConnection.
  match goal with
  | |- context [fetchFromWorker E ?t ?w0] =>
      destruct (fetchFromWorker_quiet E t w0) as [Ht Hx];
      destruct (fetchFromWorker E t w0) as [[body [e|]] w1]
  end; simpl in *; (split; [exact Ht|]);
    rewrite ?exchanges_add_log; simpl; rewrite Hx;
    unfold exchanges; simpl; rewrite ?filter_app, ?length_app; simpl; lia.
Qed.

Lemma NewBlessnetClient_client (E : Env) (config : Config) (w : World) :
  fst (NewBlessnetClient E config w)
  = mkClient config
      (if String.eqb (BlessnetWorkerURL config) ""
       then "https://apricot-emu-jacklin-qikeha7m.bls.dev"
       else BlessnetWorkerURL config)
      ["us-east"; "eu-west"; "ap-east"] ""
      (mkAuthConfig "" "" "" 0%Z).
Proof.
  unfold NewBlessnetClient. now destruct (TestConnection _ _ _) as [[e|] w1].
Qed.

(** [NewBlessnetClient] gives the same client whatever the connection test
    meets: the outcome of the test only decides which lines are logged.  The
    client has a worker URL that is not empty (the configured one, or the
    built-in one when none is configured), the three built-in regions and
    an empty session; no token is issued and the clock is not read. *)
Theorem NewBlessnetClient_depends_on_config_only :
  forall (E E' : Env) (config : Config) (w w' : World),
    let b := fst (NewBlessnetClient E config w) in
    b = fst (NewBlessnetClient E' config w')
    /\ Config_ b = config
    /\ WorkerURL b <> ""
    /\ (WorkerURL b = BlessnetWorkerURL config
        \/ (BlessnetWorkerURL config = ""
            /\ WorkerURL b = "https://apricot-emu-jacklin-qikeha7m.bls.dev"))
    /\ Regions b = ["us-east"; "eu-west"; "ap-east"]
    /\ Token (auth b) = ""
    /\ ExpiresAt (auth b) = 0%Z
    /\ exchanges (snd (NewBlessnetClient E config w)) = exchanges w
    /\ tick (snd (NewBlessnetClient E config w)) = tick w.
Proof.
  intros E E' config w w'.
  destruct (NewBlessnetClient_quiet E config w) as [Ht Hx].
  cbv zeta. rewrite !NewBlessnetClient_client. simpl.
  split; [reflexivity|]. split; [reflexivity|].
  destruct (String.eqb (BlessnetWorkerURL config) "") eqn:Hurl.
  - apply String.eqb_eq in Hurl.
    split; [discriminate|]. split; [right; auto|]. auto.
  - apply String.eqb_neq in Hurl.
    split; [assumption|]. split; [left; reflexivity|]. auto.
Qed.

(** In every state the program can reach, the session is either the empty
    one of a new client (no token, zero expiry) or one written by the
    issuing block: a token made from a clock reading of the past and an
    expiry twenty-four hours after the reading that followed it.  A
    non-empty token is never cached without such an expiry. *)
Theorem reachable_session_is_empty_or_issued :
  forall (E : Env) (b : BlessnetClient) (w : World),
    reachable E b w ->
    (Token (auth b) = "" /\ ExpiresAt (auth b) = 0%Z)
    \/ (exists k,
           S k < tick w
           /\ Token (auth b)
              = "simulated_token_" ++ FormatRFC3339 E (now E k)
           /\ ExpiresAt (auth b) = (now E (S k) + 24 * Hour)%Z).
Proof.
  intros E b w Hreach.
  assert (Hissued : forall b0 w0,
             exists k,
               S k < tick (snd (issued E b0 w0))
               /\ Token (auth (fst (issued E b0 w0)))
                  = "simulated_token_" ++ FormatRFC3339 E (now E k)
               /\ ExpiresAt (auth (fst (issued E b0 w0)))
                  = (now E (S k) + 24 * Hour)%Z).
  { intros b0 w0. exists (tick w0).
    destruct (issued_facts E b0 w0) as [Ht [He [Hk _]]].
    repeat split; try assumption. lia. }
  induction Hreach as [config w | b w Hreach IH | b w Hreach IH
                      | b w w' Hreach IH Hle].
  - left. rewrite NewBlessnetClient_client. auto.
  - destruct (String.eqb (Token (auth b)) "") eqn:Htok.
    + apply String.eqb_eq in Htok. rewrite Authenticate_empty by assumption.
      right. apply Hissued.
    + apply String.eqb_neq in Htok.
      destruct (Z.lt_ge_cases (now E (tick w)) (ExpiresAt (auth b)))
        as [Hlt | Hge].
      * rewrite Authenticate_cached by assumption. simpl.
        destruct IH as [[Hempty _] | [k [Hk Hrest]]]; [contradiction|].
        right. exists k. split; [lia | exact Hrest].
      * rewrite Authenticate_expired by assumption. right. apply Hissued.
  - rewrite RefreshAuth_issues. right. apply Hissued.
  - destruct IH as [Hempty | [k [Hk Hrest]]]; [now left|].
    right. exists k. split; [lia | exact Hrest].
Qed.

Lemma reachable_session_is_empty_or_issued_witness :
  exists k,
    S k < tick sample_world_authenticated
    /\ Token (auth sample_client_authenticated)
       = "simulated_token_" ++ FormatRFC3339 sample_env (now sample_env k)
    /\ ExpiresAt (auth sample_client_authenticated)
       = (now sample_env (S k) + 24 * Hour)%Z.
Proof.
  destruct (reachable_session_is_empty_or_issued sample_env
              sample_client_authenticated sample_world_authenticated)
    as [[Hempty _] | H].
  - unfold sample_client_authenticated, sample_world_authenticated.
    apply reach_Authenticate.
    unfold sample_client, sample_world. apply reach_new.
  - discriminate Hempty.
  - exact H.
Defined.

Section CachingFacts.

Context (E : Env).

(** While the cached token is valid at every clock reading of the calls,
    [Authenticate] keeps returning it and issues nothing. *)
Lemma Authenticate_times_cached n :
  forall b w,
    Token (auth b) <> "" ->
    (forall k, tick w <= k < tick w + 2 * n ->
               (now E k < ExpiresAt (auth b))%Z) ->
    fst (Authenticate_times E n b w) = b
    /\ exchanges (snd (Authenticate_times E n b w)) = exchanges w.
Proof.
  induction n as [|n IH]; intros b w Htok Hvalid; cbn [Authenticate_times].
  - auto.
  - rewrite Authenticate_cached; [|assumption | apply Hvalid; lia].
    destruct (IH b (add_log (LogUsingExistingToken
                               (ExpiresAt (auth b) - now E (S (tick w)))%Z)
                      (add_tick (add_tick w))) Htok) as [Hb Hx].
    + intros k Hk. simpl in Hk. apply Hvalid. lia.
    + split; [exact Hb|]. rewrite Hx, exchanges_add_log. simpl.
      unfold exchanges. simpl. lia.
Qed.

Lemma issued_then_cached n b w0 t0 :
  (forall k, tick w0 <= k < tick w0 + 3 + 2 * n ->
             (t0 <= now E k < t0 + 24 * Hour)%Z) ->
  exchanges (snd (Authenticate_times E n (fst (issued E b w0))
                                     (snd (issued E b w0))))
  = S (exchanges w0)
  /\ Token (auth (fst (Authenticate_times E n (fst (issued E b w0))
                                          (snd (issued E b w0))))) <> "".
Proof.
  intros Hwin.
  destruct (issued_facts E b w0) as [Ht [He [Hk [Hx _]]]].
  assert (Htok : Token (auth (fst (issued E b w0))) <> "")
    by (rewrite Ht; discriminate).
  destruct (Authenticate_times_cached n (fst (issued E b w0))
              (snd (issued E b w0)) Htok) as [Hb Hsame].
  - intros k Hkk. rewrite Hk in Hkk. rewrite He.
    assert (t0 <= now E (S (tick w0)))%Z by (apply Hwin; lia).
    assert (now E k < t0 + 24 * Hour)%Z by (apply Hwin; lia).
    lia.
  - rewrite Hb, Hsame, Hx. auto.
Qed.

Lemma Authenticate_times_one_issue n :
  forall b w t0,
    (forall k, tick w <= k < tick w + 4 * n ->
               (t0 <= now E k < t0 + 24 * Hour)%Z) ->
    exchanges (snd (Authenticate_times E n b w)) <= S (exchanges w)
    /\ (0 < n -> Token (auth (fst (Authenticate_times E n b w))) <> "").
Proof.
  induction n as [|n IH]; intros b w t0 Hwin; cbn [Authenticate_times].
  - split; [simpl; lia | lia].
  - destruct (String.eqb (Token (auth b)) "") eqn:Htok.
    + apply String.eqb_eq in Htok. rewrite Authenticate_empty by assumption.
      destruct (issued_then_cached n b w t0) as [Hx Ht].
      { intros k Hk. apply Hwin. lia. }
      rewrite Hx. split; [lia | intros _; exact Ht].
    + apply String.eqb_neq in Htok.
      destruct (Z.lt_ge_cases (now E (tick w)) (ExpiresAt (auth b)))
        as [Hlt | Hge].
      * rewrite Authenticate_cached by assumption.
        match goal with
        | |- context [Authenticate_times E n b ?w1] =>
            destruct (IH b w1 t0) as [Hx Ht]
        end.
        { intros k Hk. simpl in Hk. apply Hwin. lia. }
        rewrite exchanges_add_log in Hx. simpl in Hx.
        change (exchanges (add_tick (add_tick w))) with (exchanges w) in Hx.
        split; [lia|].
        intros _. destruct n as [|n']; [exact Htok | apply Ht; lia].
      * rewrite Authenticate_expired by assumption.
        destruct (issued_then_cached n b (add_tick w) t0) as [Hx Ht].
        { intros k Hk. simpl in Hk. apply Hwin. lia. }
        rewrite Hx. change (exchanges (add_tick w)) with (exchanges w).
        split; [lia | intros _; exact Ht].
Qed.

End CachingFacts.

(** Caching.  When all clock readings taken during [n] successive calls of
    [Authenticate] lie within one span of twenty-four hours, the calls
    issue a token at most once, whatever the cached session was at the
    start, and after the first call the cached token is never empty. *)
Theorem Authenticate_issues_at_most_once_per_day :
  forall (E : Env) (n : nat) (b : BlessnetClient) (w : World) (t0 : Time),
    (forall k, tick w <= k < tick w + 4 * n ->
               (t0 <= now E k < t0 + 24 * Hour)%Z) ->
    let '(b', w') := Authenticate_times E n b w in
    exchanges w' <= S (exchanges w)
    /\ (0 < n -> Token (auth b') <> "").
Proof.
  intros E n b w t0 Hwin.
  pose proof (Authenticate_times_one_issue E n b w t0 Hwin) as H.
  destruct (Authenticate_times E n b w) as [b' w']. exact H.
Qed.

Lemma Authenticate_issues_at_most_once_per_day_witness :
  let '(b', w') := Authenticate_times sample_env 3 sample_client sample_world in
  exchanges w' <= S (exchanges sample_world)
  /\ (0 < 3 -> Token (auth b') <> "").
Proof.
  apply (Authenticate_issues_at_most_once_per_day sample_env 3 sample_client
           sample_world (sample_clock 0)).
  intros k Hk.
  assert (Ht : tick sample_world = 0) by reflexivity.
  rewrite Ht in Hk.
  cbn [now sample_env]. unfold sample_clock, Hour. lia.
Defined.

(* ------------------------------------------------------------------ *)
(** * Further properties of concurrent callers *)

Section InterleavingFacts.

Import Interleaving.

Context (E : Env).

(** What one step does to the program counter, the mutex, the token and
    the number of exchanges. *)
Lemma step_summary p s p' s' :
  step E p s = Some (p', s') ->
  match p with
  | AtCheck =>
      locked s' = locked s
      /\ ((p' = AtLock
           /\ exchanges (world s') = S (exchanges (world s)))
          \/ (p' = Returned
              /\ exchanges (world s') = exchanges (world s)
              /\ Token (auth (client s)) <> ""))
  | AtLock =>
      p' = AtSetToken /\ locked s = false /\ locked s' = true
      /\ exchanges (world s') = exchanges (world s)
  | AtSetToken =>
      p' = AtSetExpiry /\ locked s' = locked s
      /\ exchanges (world s') = exchanges (world s)
  | AtSetExpiry =>
      p' = AtUnlock /\ locked s' = locked s
      /\ exchanges (world s') = exchanges (world s)
  | AtUnlock =>
      p' = AtLogSuccess /\ locked s' = false
      /\ exchanges (world s') = exchanges (world s)
  | AtLogSuccess =>
      p' = Returned /\ locked s' = locked s
      /\ exchanges (world s') = exchanges (world s)
  | Returned => False
  end.
Proof.
  destruct p; unfold step, time_Until, time_Now; intros H.
  - destruct (String.eqb (Token (auth (client s))) "") eqn:Htok; simpl in H.
    + injection H as <- <-. simpl. split; [reflexivity|]. left.
      split; [reflexivity|]. rewrite exchanges_add_log. simpl. lia.
    + apply String.eqb_neq in Htok.
      destruct (now E (tick (world s)) <? ExpiresAt (auth (client s)))%Z;
        injection H as <- <-; simpl; (split; [reflexivity|]).
      * right. repeat split; [|assumption].
        rewrite exchanges_add_log. simpl. unfold exchanges. simpl. lia.
      * left. split; [reflexivity|]. rewrite exchanges_add_log. simpl.
        unfold exchanges. simpl. lia.
  - destruct (locked s) eqn:Hl; [discriminate|].
    injection H as <- <-. simpl. auto.
  - injection H as <- <-. simpl. auto.
  - injection H as <- <-. simpl. auto.
  - injection H as <- <-. simpl. auto.
  - injection H as <- <-. simpl. repeat split.
    rewrite exchanges_add_log. simpl. unfold exchanges. simpl. lia.
  - discriminate.
Qed.

(** A goroutine can move unless it has returned or waits for a mutex that
    is held. *)
Lemma step_enabled p s :
  p <> Returned -> (p = AtLock -> locked s = false) ->
  exists p' s', step E p s = Some (p', s').
Proof.
  intros Hp Hlock.
  destruct p; unfold step, time_Until, time_Now;
    try (eexists _, _; reflexivity); try contradiction.
  - destruct (negb (String.eqb (Token (auth (client s))) "")); simpl.
    + destruct (now E (tick (world s)) <? ExpiresAt (auth (client s)))%Z;
        eexists _, _; reflexivity.
    + eexists _, _; reflexivity.
  - rewrite (Hlock eq_refl). eexists _, _; reflexivity.
Qed.

Lemma step_steps_left p s p' s' :
  step E p s = Some (p', s') -> steps_left p' < steps_left p.
Proof.
  intros H. pose proof (step_summary p s p' s' H) as Hs.
  destruct p; simpl in *; try contradiction.
  - destruct Hs as [_ [[-> _] | [-> _]]]; simpl; lia.
  - destruct Hs as [-> _]; simpl; lia.
  - destruct Hs as [-> _]; simpl; lia.
  - destruct Hs as [-> _]; simpl; lia.
  - destruct Hs as [-> _]; simpl; lia.
  - destruct Hs as [-> _]; simpl; lia.
Qed.

Lemma sched_step_mutex sys second :
  mutex_respected sys -> mutex_respected (sched_step E sys second).
Proof.
  unfold mutex_respected, sched_step. intros [Hex Hlock].
  destruct second.
  - destruct (step E (pc2 sys) (shared sys)) as [[p s]|] eqn:Hstep;
      [|auto].
    pose proof (step_summary _ _ _ _ Hstep) as Hs. simpl.
    destruct (pc2 sys); simpl in *; try contradiction;
      repeat match goal with
             | H : _ /\ _ |- _ => destruct H
             | H : _ \/ _ |- _ => destruct H
             end; subst; simpl in *;
      destruct (in_critical (pc1 sys)); simpl in *;
      split; congruence.
  - destruct (step E (pc1 sys) (shared sys)) as [[p s]|] eqn:Hstep;
      [|auto].
    pose proof (step_summary _ _ _ _ Hstep) as Hs. simpl.
    destruct (pc1 sys); simpl in *; try contradiction;
      repeat match goal with
             | H : _ /\ _ |- _ => destruct H
             | H : _ \/ _ |- _ => destruct H
             end; subst; simpl in *;
      destruct (in_critical (pc2 sys)); simpl in *;
      split; congruence.
Qed.

Lemma run_mutex schedule :
  forall sys, mutex_respected sys -> mutex_respected (run E schedule sys).
Proof.
  unfold run. induction schedule as [|t schedule IH]; intros sys H; simpl.
  - exact H.
  - apply IH. now apply sched_step_mutex.
Qed.

Lemma run_app s1 s2 sys : run E (s1 ++ s2) sys = run E s2 (run E s1 sys).
Proof. unfold run. apply fold_left_app. Qed.

(** When the mutex is respected, some goroutine can move unless both have
    returned. *)
Lemma progress sys :
  mutex_respected sys ->
  both_returned sys
  \/ exists second,
       steps_left (pc1 (sched_step E sys second))
       + steps_left (pc2 (sched_step E sys second))
       < steps_left (pc1 sys) + steps_left (pc2 sys).
Proof.
  intros [Hex Hlock].
  assert (Hmove1 : (pc1 sys <> Returned) ->
                   (pc1 sys = AtLock -> locked (shared sys) = false) ->
                   exists second,
                     steps_left (pc1 (sched_step E sys second))
                     + steps_left (pc2 (sched_step E sys second))
                     < steps_left (pc1 sys) + steps_left (pc2 sys)).
  { intros Hp Hl. exists false. unfold sched_step.
    destruct (step_enabled (pc1 sys) (shared sys) Hp Hl) as [p [s Hstep]].
    rewrite Hstep. simpl.
    pose proof (step_steps_left _ _ _ _ Hstep). lia. }
  assert (Hmove2 : (pc2 sys <> Returned) ->
                   (pc2 sys = AtLock -> locked (shared sys) = false) ->
                   exists second,
                     steps_left (pc1 (sched_step E sys second))
                     + steps_left (pc2 (sched_step E sys second))
                     < steps_left (pc1 sys) + steps_left (pc2 sys)).
  { intros Hp Hl. exists true. unfold sched_step.
    destruct (step_enabled (pc2 sys) (shared sys) Hp Hl) as [p [s Hstep]].
    rewrite Hstep. simpl.
    pose proof (step_steps_left _ _ _ _ Hstep). lia. }
  unfold both_returned.
  destruct (pc1 sys) eqn:H1; destruct (pc2 sys) eqn:H2; simpl in *;
    try discriminate;
    try (left; split; reflexivity);
    try (right; apply Hmove1; [discriminate | intros; try discriminate; assumption]);
    try (right; apply Hmove2; [discriminate | intros; try discriminate; assumption]).
Qed.

Lemma can_finish n :
  forall sys,
    mutex_respected sys ->
    steps_left (pc1 sys) + steps_left (pc2 sys) <= n ->
    exists rest,
      List.length rest <= n /\ both_returned (run E rest sys).
Proof.
  induction n as [|n IH]; intros sys Hm Hn.
  - exists []. split; [simpl; lia|]. unfold both_returned. simpl.
    destruct (pc1 sys); destruct (pc2 sys); simpl in Hn; try lia. auto.
  - destruct (progress sys Hm) as [Hdone | [second Hless]].
    + exists []. split; [simpl; lia | exact Hdone].
    + destruct (IH (sched_step E sys second)) as [rest [Hlen Hret]].
      * now apply sched_step_mutex.
      * lia.
      * exists (second :: rest). split; [simpl; lia | exact Hret].
Qed.

(** The number of exchanges under any schedule: none as long as both
    goroutines stand before the validity test of an empty cache; afterwards
    at least one, and at most one for each goroutine that has made the
    test. *)
Lemma sched_step_exchanges sys second base :
  (exchanges (world (shared sys)) = base
   /\ pc1 sys = AtCheck /\ pc2 sys = AtCheck
   /\ Token (auth (client (shared sys))) = "")
  \/ (S base <= exchanges (world (shared sys))
      /\ exchanges (world (shared sys)) + before_check (pc1 sys)
         + before_check (pc2 sys) <= base + 2) ->
  let sys' := sched_step E sys second in
  (exchanges (world (shared sys')) = base
   /\ pc1 sys' = AtCheck /\ pc2 sys' = AtCheck
   /\ Token (auth (client (shared sys'))) = "")
  \/ (S base <= exchanges (world (shared sys'))
      /\ exchanges (world (shared sys')) + before_check (pc1 sys')
         + before_check (pc2 sys') <= base + 2).
Proof.
  intros Hinv. unfold sched_step. destruct second.
  - destruct (step E (pc2 sys) (shared sys)) as [[p s]|] eqn:Hstep;
      [|exact Hinv].
    pose proof (step_summary _ _ _ _ Hstep) as Hs. cbn [shared pc1 pc2].
    destruct Hinv as [[Hx [H1 [H2 Htok]]] | [Hlow Hup]].
    + rewrite H2 in Hs. destruct Hs as [_ [[-> Hx'] | [_ [_ Hne]]]];
        [|contradiction].
      right. rewrite Hx', Hx, H1. simpl. lia.
    + right. destruct (pc2 sys); simpl in *; try contradiction;
        repeat match goal with
               | H : _ /\ _ |- _ => destruct H
               | H : _ \/ _ |- _ => destruct H
               end; subst; simpl in *; lia.
  - destruct (step E (pc1 sys) (shared sys)) as [[p s]|] eqn:Hstep;
      [|exact Hinv].
    pose proof (step_summary _ _ _ _ Hstep) as Hs. cbn [shared pc1 pc2].
    destruct Hinv as [[Hx [H1 [H2 Htok]]] | [Hlow Hup]].
    + rewrite H1 in Hs. destruct Hs as [_ [[-> Hx'] | [_ [_ Hne]]]];
        [|contradiction].
      right. rewrite Hx', Hx, H2. simpl. lia.
    + right. destruct (pc1 sys); simpl in *; try contradiction;
        repeat match goal with
               | H : _ /\ _ |- _ => destruct H
               | H : _ \/ _ |- _ => destruct H
               end; subst; simpl in *; lia.
Qed.

Lemma run_exchanges schedule :
  forall sys base,
    (exchanges (world (shared sys)) = base
     /\ pc1 sys = AtCheck /\ pc2 sys = AtCheck
     /\ Token (auth (client (shared sys))) = "")
    \/ (S base <= exchanges (world (shared sys))
        /\ exchanges (world (shared sys)) + before_check (pc1 sys)
           + before_check (pc2 sys) <= base + 2) ->
    let sys' := run E schedule sys in
    (exchanges (world (shared sys')) = base
     /\ pc1 sys' = AtCheck /\ pc2 sys' = AtCheck
     /\ Token (auth (client (shared sys'))) = "")
    \/ (S base <= exchanges (world (shared sys'))
        /\ exchanges (world (shared sys')) + before_check (pc1 sys')
           + before_check (pc2 sys') <= base + 2).
Proof.
  unfold run. induction schedule as [|t schedule IH]; intros sys base H.
  - exact H.
  - simpl. apply IH. now apply sched_step_exchanges.
Qed.

End InterleavingFacts.

(** Under every schedule of two goroutines calling [Authenticate], the
    mutex is held exactly while one of them is between [Lock] and [Unlock],
    and the two are never there together: the writes of the token and of
    the expiry by one caller are not interleaved with those of the
    other. *)
Theorem mutex_respected_under_every_schedule :
  forall (E : Env) (b : BlessnetClient) (w : World) (schedule : list bool),
    mutex_respected
      (Interleaving.run E schedule (Interleaving.start b w)).
Proof.
  intros E b w schedule. apply run_mutex.
  unfold mutex_respected, Interleaving.start. simpl. auto.
Qed.

(** No deadlock: whatever the two goroutines have done so far, the
    scheduler can let them go on so that, within twelve more turns, both
    calls of [Authenticate] have returned. *)
Theorem both_callers_can_always_return :
  forall (E : Env) (b : BlessnetClient) (w : World) (schedule : list bool),
    exists rest,
      List.length rest <= 12
      /\ both_returned
           (Interleaving.run E (schedule ++ rest) (Interleaving.start b w)).
Proof.
  intros E b w schedule.
  destruct (can_finish E 12
              (Interleaving.run E schedule (Interleaving.start b w)))
    as [rest [Hlen Hret]].
  - apply run_mutex. unfold mutex_respected, Interleaving.start. simpl. auto.
  - assert (Hmax : forall p, steps_left p <= 6) by (intros []; simpl; lia).
    pose proof (Hmax (Interleaving.pc1
                        (Interleaving.run E schedule
                           (Interleaving.start b w)))).
    pose proof (Hmax (Interleaving.pc2
                        (Interleaving.run E schedule
                           (Interleaving.start b w)))).
    lia.
  - exists rest. split; [exact Hlen|]. now rewrite run_app.
Qed.

(** Starting without a cached token, under every schedule the two
    goroutines together enter the issuing block at most twice, and once
    both have returned they have entered it at least once. *)
Theorem concurrent_exchanges_between_one_and_two :
  forall (E : Env) (b : BlessnetClient) (w : World) (schedule : list bool),
    Token (auth b) = "" ->
    let sys := Interleaving.run E schedule (Interleaving.start b w) in
    exchanges (Interleaving.world (Interleaving.shared sys))
      <= exchanges w + 2
    /\ (both_returned sys ->
        S (exchanges w)
        <= exchanges (Interleaving.world (Interleaving.shared sys))).
Proof.
  intros E b w schedule Htok.
  pose proof (run_exchanges E schedule (Interleaving.start b w) (exchanges w))
    as H.
  cbv zeta in *.
  destruct H as [[Hx [H1 [H2 _]]] | [Hlow Hup]].
  - left. unfold Interleaving.start. simpl. auto.
  - split; [lia|]. intros [Hr _]. rewrite H1 in Hr. discriminate.
  - split; [lia | intros _; exact Hlow].
Qed.

Lemma concurrent_exchanges_between_one_and_two_witness :
  exchanges
    (Interleaving.world
       (Interleaving.shared
          (Interleaving.run sample_env [false; true; true; false]
             (Interleaving.start sample_client sample_world))))
  <= exchanges sample_world + 2.
Proof.
  apply (concurrent_exchanges_between_one_and_two sample_env sample_client
           sample_world [false; true; true; false]).
  reflexivity.
Defined.

(* ------------------------------------------------------------------ *)
(** * Properties of the configuration file (config.go) *)

Lemma default_Z_nonzero (x d : Z) :
  d <> 0%Z -> (if (x =? 0)%Z then d else x) <> 0%Z.
Proof. intros Hd. destruct (x =? 0)%Z eqn:H; [assumption | now apply Z.eqb_neq]. Qed.

Lemma default_string_nonempty (x d : string) :
  d <> "" -> (if String.eqb x "" then d else x) <> "".
Proof.
  intros Hd. destruct (String.eqb x "") eqn:H;
    [assumption | now apply String.eqb_neq].
Qed.

Lemma default_list_nonempty (x d : list string) :
  d <> [] -> (if (List.length x =? 0)%nat then d else x) <> [].
Proof. intros Hd. destruct x; simpl; [assumption | discriminate]. Qed.

Lemma applyConfigDefaults_complete (config : ConfigFile.Config) :
  ConfigFile.complete (ConfigFile.applyConfigDefaults config).
Proof.
  unfold ConfigFile.complete, ConfigFile.applyConfigDefaults. simpl.
  repeat split;
    try (apply default_Z_nonzero; discriminate);
    try (apply default_string_nonempty; discriminate);
    try (apply default_list_nonempty; discriminate).
  destruct (ConfigFile.Worker_Attributes config); discriminate.
Qed.

Lemma applyConfigDefaults_fixes_complete (config : ConfigFile.Config) :
  ConfigFile.complete config ->
  ConfigFile.applyConfigDefaults config = config.
Proof.
  destruct config as [port listen nss url key secret base version user pass
                      token id durl count regions attrs blocked proxied mode].
  unfold ConfigFile.complete, ConfigFile.applyConfigDefaults. simpl.
  intros [Hport [Hlisten [Hnss [Hurl [Hbase [Hversion [Hcount [Hregions
          [Hattrs Hmode]]]]]]]]].
  apply Z.eqb_neq in Hport, Hcount.
  apply String.eqb_neq in Hlisten, Hurl, Hbase, Hversion, Hmode.
  rewrite Hport, Hcount, Hlisten, Hurl, Hbase, Hversion, Hmode.
  destruct nss; [contradiction|]. destruct regions; [contradiction|].
  destruct attrs; [|contradiction]. reflexivity.
Qed.

(** After [applyConfigDefaults] every defaulted field has a value: the
    port and the worker count are not zero, the listen address, the worker
    URL, the API base URL and version and the proxy mode are not empty, the
    nameserver and region lists are not empty and the attribute map is not
    nil.  The API key and secret, the auth and deployment sections and the
    two domain lists are those of the input. *)
Theorem applyConfigDefaults_fills_every_default :
  forall config : ConfigFile.Config,
    let config' := ConfigFile.applyConfigDefaults config in
    ConfigFile.complete config'
    /\ ConfigFile.BlessnetAPIKey config' = ConfigFile.BlessnetAPIKey config
    /\ ConfigFile.BlessnetAPISecret config'
       = ConfigFile.BlessnetAPISecret config
    /\ ConfigFile.Auth_Username config' = ConfigFile.Auth_Username config
    /\ ConfigFile.Auth_Password config' = ConfigFile.Auth_Password config
    /\ ConfigFile.Auth_Token config' = ConfigFile.Auth_Token config
    /\ ConfigFile.Deployment_ID config' = ConfigFile.Deployment_ID config
    /\ ConfigFile.Deployment_URL config' = ConfigFile.Deployment_URL config
    /\ ConfigFile.BlockedDomains config' = ConfigFile.BlockedDomains config
    /\ ConfigFile.ProxyDomains config' = ConfigFile.ProxyDomains config.
Proof.
  intros config. split; [apply applyConfigDefaults_complete|].
  repeat split.
Qed.

(** [applyConfigDefaults] changes a configuration only where a defaulted
    field has no value: it returns its input exactly when the input is
    complete, and applying it twice is applying it once. *)
Theorem applyConfigDefaults_idempotent :
  forall config : ConfigFile.Config,
    (ConfigFile.applyConfigDefaults config = config
     <-> ConfigFile.complete config)
    /\ ConfigFile.applyConfigDefaults (ConfigFile.applyConfigDefaults config)
       = ConfigFile.applyConfigDefaults config.
Proof.
  intros config. split.
  - split.
    + intros H. rewrite <- H. apply applyConfigDefaults_complete.
    + apply applyConfigDefaults_fixes_complete.
  - apply applyConfigDefaults_fixes_complete, applyConfigDefaults_complete.
Qed.

Lemma LoadConfig_success (fs : ConfigFile.FileSystem) (path : string)
    (config : ConfigFile.Config) :
  fst (ConfigFile.LoadConfig fs path) = inl config ->
  (exists parsed, config = ConfigFile.applyConfigDefaults parsed)
  \/ config = ConfigFile.default_config.
Proof.
  unfold ConfigFile.LoadConfig, ConfigFile.createDefaultConfig.
  destruct (ConfigFile.Open fs path) as [e | e | [data | e]]; simpl.
  - destruct (ConfigFile.MkdirAll fs _); [discriminate|].
    destruct (ConfigFile.MarshalIndent fs _) as [data|e']; [|discriminate].
    destruct (ConfigFile.WriteFile fs path data); [discriminate|].
    simpl. intros H. injection H as <-. now right.
  - discriminate.
  - destruct (ConfigFile.Unmarshal fs data) as [parsed|e]; [|discriminate].
    simpl. intros H. injection H as <-. left. now exists parsed.
  - discriminate.
Qed.

Lemma default_config_complete : ConfigFile.complete ConfigFile.default_config.
Proof. unfold ConfigFile.complete. simpl. repeat split; discriminate. Qed.

(** Whenever [LoadConfig] returns a configuration, from an existing file
    or from the defaults it has just written, that configuration is
    complete; in particular it names at least one upstream nameserver and a
    non-zero port. *)
Theorem LoadConfig_returns_complete_config :
  forall (fs : ConfigFile.FileSystem) (path : string)
         (config : ConfigFile.Config),
    fst (ConfigFile.LoadConfig fs path) = inl config ->
    ConfigFile.complete config
    /\ ConfigFile.applyConfigDefaults config = config.
Proof.
  intros fs path config H.
  assert (Hc : ConfigFile.complete config).
  { destruct (LoadConfig_success fs path config H) as [[parsed ->] | ->].
    - apply applyConfigDefaults_complete.
    - apply default_config_complete. }
  split; [exact Hc | now apply applyConfigDefaults_fixes_complete].
Qed.

Lemma LoadConfig_returns_complete_config_witness :
  exists config,
    fst (ConfigFile.LoadConfig sample_fs "config.json") = inl config
    /\ ConfigFile.Nameservers config = ["8.8.8.8"; "1.1.1.1"]
    /\ ConfigFile.ProxyDomains config = ["blocked.org"]
    /\ ConfigFile.complete config.
Proof.
  eexists. split; [reflexivity|]. split; [reflexivity|].
  split; [reflexivity|].
  apply (LoadConfig_returns_complete_config sample_fs "config.json").
  reflexivity.
Defined.

(** [LoadConfig] changes the file system only when the file does not
    exist.  Then, when the directory can be made, the default configuration
    marshalled and the file written, it makes the directory (mode 0755),
    writes one file, at the path it was asked to load, with the marshalled
    default configuration and mode 0644, and returns the default
    configuration; when making the directory fails nothing is changed and
    the error is returned, and when marshalling or writing fails only the
    directory has been made.  An existing file, readable or not, well
    formed or not, is never written. *)
Theorem LoadConfig_writes_only_missing_file :
  forall (fs : ConfigFile.FileSystem) (path : string),
    let dir := ConfigFile.Dir fs path in
    ((exists err, ConfigFile.Open fs path = ConfigFile.OpenNotExist err) ->
     (forall data,
         ConfigFile.MkdirAll fs dir = None ->
         ConfigFile.MarshalIndent fs ConfigFile.default_config = inl data ->
         ConfigFile.WriteFile fs path data = None ->
         ConfigFile.LoadConfig fs path
         = (inl ConfigFile.default_config,
            [ConfigFile.DidMkdirAll dir 493;
             ConfigFile.DidWriteFile path data 420]))
     /\ (forall err,
            ConfigFile.MkdirAll fs dir = Some err ->
            ConfigFile.LoadConfig fs path = (inr err, []))
     /\ (forall err,
            ConfigFile.MkdirAll fs dir = None ->
            ConfigFile.MarshalIndent fs ConfigFile.default_config = inr err ->
            ConfigFile.LoadConfig fs path
            = (inr err, [ConfigFile.DidMkdirAll dir 493]))
     /\ (forall data err,
            ConfigFile.MkdirAll fs dir = None ->
            ConfigFile.MarshalIndent fs ConfigFile.default_config = inl data ->
            ConfigFile.WriteFile fs path data = Some err ->
            ConfigFile.LoadConfig fs path
            = (inr err, [ConfigFile.DidMkdirAll dir 493])))
    /\ ((forall err, ConfigFile.Open fs path <> ConfigFile.OpenNotExist err) ->
        snd (ConfigFile.LoadConfig fs path) = [])
    /\ (forall p data perm,
           In (ConfigFile.DidWriteFile p data perm)
              (snd (ConfigFile.LoadConfig fs path)) ->
           p = path /\ perm = 420%Z
           /\ ConfigFile.MarshalIndent fs ConfigFile.default_config = inl data
           /\ fst (ConfigFile.LoadConfig fs path)
              = inl ConfigFile.default_config).
Proof.
  intros fs path dir. subst dir.
  unfold ConfigFile.LoadConfig, ConfigFile.createDefaultConfig.
  split; [|split].
  - intros [e0 Hopen]. rewrite Hopen. repeat split.
    + intros data Hmk Hma Hwr. now rewrite Hmk, Hma, Hwr.
    + intros err Hmk. now rewrite Hmk.
    + intros err Hmk Hma. now rewrite Hmk, Hma.
    + intros data err Hmk Hma Hwr. now rewrite Hmk, Hma, Hwr.
  - intros Hexists.
    destruct (ConfigFile.Open fs path) as [e | e | [data | e]];
      try reflexivity.
    + exfalso. now apply (Hexists e).
    + now destruct (ConfigFile.Unmarshal fs data).
  - intros p data perm.
    destruct (ConfigFile.Open fs path) as [e | e | [d | e]]; simpl;
      try contradiction.
    + destruct (ConfigFile.MkdirAll fs _) as [e1|]; [intros []|].
      destruct (ConfigFile.MarshalIndent fs _) as [d|e2] eqn:Hma.
      * destruct (ConfigFile.WriteFile fs path d) as [e3|]; simpl.
        -- intros [H|[]]. discriminate H.
        -- intros [H|[H|[]]]; [discriminate H|].
           injection H as <- <- <-. auto.
      * simpl. intros [H|[]]. discriminate H.
    + destruct (ConfigFile.Unmarshal fs d); intros [].
Qed.

Lemma LoadConfig_writes_only_missing_file_witness :
  ConfigFile.LoadConfig sample_fs_empty "config.json"
  = (inl ConfigFile.default_config,
     [ConfigFile.DidMkdirAll "." 493;
      ConfigFile.DidWriteFile "config.json" "{}" 420])
  /\ snd (ConfigFile.LoadConfig sample_fs "config.json") = [].
Proof.
  split.
  - destruct (LoadConfig_writes_only_missing_file sample_fs_empty
                "config.json") as [H _].
    destruct H as [H _].
    + now exists "no such file or directory".
    + apply (H "{}"); reflexivity.
  - destruct (LoadConfig_writes_only_missing_file sample_fs "config.json")
      as [_ [H _]].
    apply H. intros err Herr. discriminate Herr.
Defined.

(** A configuration file that holds an empty JSON object and a missing
    configuration file lead to the same settings except for the
    deployment section: the defaults written for a missing file name a
    deployment, the defaults applied to a parsed file do not. *)
Theorem empty_file_and_missing_file_differ_in_deployment :
  forall (fs fs' : ConfigFile.FileSystem) (path data : string)
         (created loaded : ConfigFile.Config),
    (exists err, ConfigFile.Open fs path = ConfigFile.OpenNotExist err) ->
    fst (ConfigFile.LoadConfig fs path) = inl created ->
    ConfigFile.Open fs' path = ConfigFile.Opened (inl data) ->
    ConfigFile.Unmarshal fs' data = inl ConfigFile.zero_config ->
    fst (ConfigFile.LoadConfig fs' path) = inl loaded ->
    ConfigFile.Deployment_ID loaded = ""
    /\ ConfigFile.Deployment_URL loaded = ""
    /\ ConfigFile.Deployment_ID created <> ""
    /\ ConfigFile.Deployment_URL created <> ""
    /\ created
       = ConfigFile.mkConfig
           (ConfigFile.DNSPort loaded) (ConfigFile.DNSListen loaded)
           (ConfigFile.Nameservers loaded)
           (ConfigFile.BlessnetWorkerURL loaded)
           (ConfigFile.BlessnetAPIKey loaded)
           (ConfigFile.BlessnetAPISecret loaded)
           (ConfigFile.API_BaseURL loaded) (ConfigFile.API_Version loaded)
           (ConfigFile.Auth_Username loaded)
           (ConfigFile.Auth_Password loaded)
           (ConfigFile.Auth_Token loaded)
           (ConfigFile.Deployment_ID created)
           (ConfigFile.Deployment_URL created)
           (ConfigFile.Worker_Count loaded)
           (ConfigFile.Worker_Regions loaded)
           (ConfigFile.Worker_Attributes loaded)
           (ConfigFile.BlockedDomains loaded)
           (ConfigFile.ProxyDomains loaded)
           (ConfigFile.ProxyMode loaded).
Proof.
  intros fs fs' path data created loaded [err Hmissing] Hcreated Hopen Hparse
         Hloaded.
  assert (Hc : created = ConfigFile.default_config).
  { revert Hcreated.
    unfold ConfigFile.LoadConfig, ConfigFile.createDefaultConfig.
    rewrite Hmissing.
    destruct (ConfigFile.MkdirAll fs _); [discriminate|].
    destruct (ConfigFile.MarshalIndent fs _) as [d|e']; [|discriminate].
    destruct (ConfigFile.WriteFile fs path d); [discriminate|].
    simpl. intros H. now injection H as <-. }
  assert (Hl : loaded = ConfigFile.applyConfigDefaults ConfigFile.zero_config).
  { revert Hloaded. unfold ConfigFile.LoadConfig. rewrite Hopen, Hparse.
    simpl. intros H. now injection H as <-. }
  subst created loaded. simpl. repeat split; discriminate.
Qed.

Lemma empty_file_and_missing_file_differ_in_deployment_witness :
  ConfigFile.Deployment_ID ConfigFile.default_config <> ""
  /\ ConfigFile.Deployment_ID
       (ConfigFile.applyConfigDefaults ConfigFile.zero_config) = "".
Proof.
  destruct (empty_file_and_missing_file_differ_in_deployment
              sample_fs_empty
              (ConfigFile.mkFileSystem
                 (fun _ => ConfigFile.Opened (inl "{}"))
                 (fun _ => None) (fun _ _ => None) (fun _ => ".")
                 (fun _ => inl ConfigFile.zero_config)
                 (fun _ => inl "{}"))
              "config.json" "{}"
              ConfigFile.default_config
              (ConfigFile.applyConfigDefaults ConfigFile.zero_config))
    as [Hl [_ [Hc _]]].
  - now exists "no such file or directory".
  - reflexivity.
  - reflexivity.
  - reflexivity.
  - reflexivity.
  - split; [exact Hc | exact Hl].
Defined.

(** With a configuration returned by [LoadConfig], a type-A query for a
    name that is not proxied is always put to at least one upstream, the
    first one configured, and to no more upstreams than are configured:
    the handler never replies without having asked. *)
Theorem loaded_config_always_asks_an_upstream :
  forall (fs : ConfigFile.FileSystem) (path : string)
         (config : ConfigFile.Config) (E : Env) (r : Msg) (q : Question)
         (rest : list Question) (w : World),
    fst (ConfigFile.LoadConfig fs path) = inl config ->
    Opcode r = OpcodeQuery ->
    Question_ r = q :: rest ->
    Qtype q = TypeA ->
    classify (ConfigFile.ProxyDomains config) (Name q) = Passthrough ->
    let w' := handleDNSRequest E (to_Config config) r w in
    exists addrs,
      contacted w' = (contacted w ++ addrs)%list
      /\ 1 <= List.length addrs <= List.length (ConfigFile.Nameservers config)
      /\ hd_error addrs
         = option_map upstream_addr
             (hd_error (ConfigFile.Nameservers config)).
Proof.
  intros fs path config E r q rest w Hload Hop Hqs Hty Hroute.
  assert (Hnss : ConfigFile.Nameservers config <> []).
  { destruct (LoadConfig_success fs path config Hload) as [[parsed ->] | ->].
    - apply applyConfigDefaults_complete.
    - discriminate. }
  unfold classify in Hroute.
  destruct (isProxyDomain (ConfigFile.ProxyDomains config)
                          (TrimSuffix (Name q) ".")) eqn:Hproxy;
    [discriminate|].
  cbv zeta. rewrite handleDNSRequest_unfold, Hop, Hqs. simpl Z.eqb. cbv iota.
  unfold route_question. rewrite Hty. simpl Z.eqb. cbv iota.
  cbn [to_Config ProxyDomains Nameservers]. rewrite Hproxy.
  set (m0 := set_Compress false (SetReply new_Msg r)).
  set (w0 := add_log (LogQueryFor (Name q)) w).
  set (nss := ConfigFile.Nameservers config) in *.
  change (contacted w) with (contacted w0).
  destruct (forwardToUpstream_cases E nss m0 q w0)
    as [[_ [_ Hc]] | [pre [ns [post [a [Hsplit [_ [_ [_ [_ [_ Hc]]]]]]]]]]];
    cbn [WriteMsg contacted]; rewrite Hc.
  - exists (map upstream_addr nss). rewrite length_map.
    split; [reflexivity|]. destruct nss; [contradiction|]. simpl.
    split; [lia | reflexivity].
  - exists (map upstream_addr (pre ++ [ns])).
    split; [reflexivity|]. rewrite length_map, Hsplit, !length_app. simpl.
    split; [lia|]. destruct pre; reflexivity.
Qed.

Lemma loaded_config_always_asks_an_upstream_witness :
  exists addrs,
    contacted (handleDNSRequest sample_env_down
                 (to_Config (ConfigFile.applyConfigDefaults
                               (ConfigFile.mkConfig 0 "" [] "" "" "" "" ""
                                  "" "" "" "" "" 0 [] None []
                                  ["blocked.org"] "")))
                 (sample_query "example.com." TypeA) world0)
    = ([] ++ addrs)%list
    /\ hd_error addrs = Some "8.8.8.8:53".
Proof.
  destruct (loaded_config_always_asks_an_upstream sample_fs "config.json"
              (ConfigFile.applyConfigDefaults
                 (ConfigFile.mkConfig 0 "" [] "" "" "" "" "" "" "" "" "" ""
                    0 [] None [] ["blocked.org"] ""))
              sample_env_down (sample_query "example.com." TypeA)
              (mkQuestion "example.com." TypeA ClassINET) [] world0
              eq_refl eq_refl eq_refl eq_refl eq_refl)
    as [addrs [Hc [_ Hhd]]].
  exists addrs. split; [exact Hc | exact Hhd].
Defined.
